(** * A shallow embedding of [function<R (Args...)>]

    The repository implements a type-erased callable container in the
    style of [std::function]: a [storage] (a pointer-sized in-place buffer
    plus a pointer to a static table of four operations), three families
    of tables (empty, small object, heap object) and the container
    [function] on top of them.

    The embedding keeps the imperative structure of the source.  Storage
    objects and heap blocks live in finite maps indexed by their
    addresses, every source function is a computation in a small
    state-and-exception monad, and reading memory the way C++ forbids
    (an indeterminate pointer, a buffer reinterpreted at the wrong type,
    a dangling heap address) is an explicit fault. *)

From stdpp Require Import gmap strings list fin_maps.

(* set_solver clears hypotheses it has already consumed *)
Set Warnings "-clear-no-such-hyp".

(** ** Addresses and exceptions *)

(** Address of a [storage] object (a container's [stg], or a local). *)
Definition loc := positive.
(** Address of a block obtained from [operator new]. *)
Definition addr := positive.
(** Identity of a concrete callable type [T]. *)
Definition type_id := positive.

Inductive exn :=
  | bad_function_call             (* struct bad_function_call : std::exception *)
  | std_bad_alloc                 (* thrown by [operator new] *)
  | thrown (tag : nat).           (* whatever a wrapped callable throws *)

(** [bad_function_call::what()]; the messages of the other exceptions
    are not fixed by this code. *)
Definition what (e : exn) : option string :=
  match e with
  | bad_function_call => Some "bad function call"%string
  | _ => None
  end.

(** Operations on wrapped objects and on the allocator, recorded in
    program order. *)
Inductive event :=
  | ev_copy (T : type_id)         (* T(T const&) was called *)
  | ev_move (T : type_id)         (* T(T&&) was called *)
  | ev_destroy (T : type_id)      (* ~T() was called *)
  | ev_alloc (a : addr)           (* operator new returned a *)
  | ev_free (a : addr).           (* operator delete(a) *)

Inductive fault :=
  | undefined_behaviour
  | terminate.                    (* an exception left a noexcept function *)

Global Instance exn_eq_dec : EqDecision exn.
Proof. solve_decision. Defined.
Global Instance event_eq_dec : EqDecision event.
Proof. solve_decision. Defined.

(** ** The monad

    A computation runs on a state and returns, throws, or goes wrong. *)

Inductive outcome (Σ A : Type) :=
  | Ret (a : A) (σ : Σ)
  | Throw (e : exn) (σ : Σ)
  | Fault (k : fault).
Arguments Ret {Σ A} a σ.
Arguments Throw {Σ A} e σ.
Arguments Fault {Σ A} k.

Definition M (Σ A : Type) : Type := Σ → outcome Σ A.

Definition ret {Σ A} (a : A) : M Σ A := λ σ, Ret a σ.

Definition bind {Σ A B} (m : M Σ A) (k : A → M Σ B) : M Σ B := λ σ,
  match m σ with
  | Ret a σ' => k a σ'
  | Throw e σ' => Throw e σ'
  | Fault f => Fault f
  end.

Definition throw {Σ A} (e : exn) : M Σ A := λ σ, Throw e σ.

Definition ub {Σ A} : M Σ A := λ _, Fault undefined_behaviour.

(** [try { m } catch (...) { h e }] *)
Definition try_catch {Σ A} (m : M Σ A) (h : exn → M Σ A) : M Σ A := λ σ,
  match m σ with
  | Throw e σ' => h e σ'
  | o => o
  end.

(** The body of a function declared [noexcept]. *)
Definition noexcept {Σ A} (m : M Σ A) : M Σ A := λ σ,
  match m σ with
  | Throw _ _ => Fault terminate
  | o => o
  end.

Declare Scope cpp_scope.
Delimit Scope cpp_scope with cpp.
Notation "'let*' x := m 'in' k" := (bind m (λ x, k))
  (at level 10, x pattern, m at level 100, k at level 200) : cpp_scope.
Notation "m ;; k" := (bind m (λ _, k))
  (at level 100, k at level 200, right associativity) : cpp_scope.
Open Scope cpp_scope.

Section Model.

(** [val] is the state of a wrapped object (the captures of a lambda),
    [R] and [Args] are the signature of the container. *)
Context {val R Args : Type}.

(** ** Concrete callable types, as the container sees them *)

(** A move constructor declared [noexcept] returns; any other may throw.
    Both yield the new object and what is left in the moved-from one. *)
Inductive move_constructor :=
  | nothrow_move (f : val → val * val)
  | throwing_move (f : val → exn + val * val).

(** [call] is the const-qualified call operator.  [call_lvalue] is what
    calling a non-const object does: the non-const [operator()] if the
    type has one, which may change the object, and the const one
    otherwise.  It yields the object as the call leaves it, also when
    the call throws. *)
Record callable := {
  sizeof : N;
  alignof : N;
  copy_construct : val → exn + val;           (* T(T const&) *)
  move_construct : move_constructor;          (* T(T&&) *)
  call : val → Args → exn + R;                (* R operator()(Args...) const *)
  call_lvalue : val → Args → val * (exn + R)  (* x(args...) on a non-const lvalue x *)
}.

Definition is_nothrow_move_constructible (T : callable) : bool :=
  match move_construct T with
  | nothrow_move _ => true
  | throwing_move _ => false
  end.

(** What the translation unit is compiled against. *)
Record environment := {
  types : type_id → callable;
  sizeof_voidp : N;                           (* sizeof of a void pointer *)
  alignof_voidp : N;                          (* alignof of a void pointer *)
  heap_capacity : nat                         (* blocks the heap can hold *)
}.

Variable E : environment.

Definition INPLACE_BUFFER_SIZE : N := sizeof_voidp E.
Definition INPLACE_BUFFER_ALIGNMENT : N := alignof_voidp E.

Definition fits_small_storage (T : type_id) : bool :=
  (sizeof (types E T) <=? INPLACE_BUFFER_SIZE)%N
  && (alignof (types E T) <=? INPLACE_BUFFER_ALIGNMENT)%N
  && is_nothrow_move_constructible (types E T).

(** ** Storage *)

(** Contents of an [inplace_buffer]. *)
Inductive buffer :=
  | raw                                       (* no live object, indeterminate bytes *)
  | inplace (T : type_id) (v : val)           (* a T constructed by placement new *)
  | address (a : addr).                       (* a void* written by set_dynamic *)

(** Pointer to a static [type_descriptor] instance: one per signature
    for the empty table, one per concrete type otherwise. *)
Inductive td_ptr :=
  | td_empty
  | td_of (T : type_id).

Global Instance td_ptr_eq_dec : EqDecision td_ptr.
Proof. solve_decision. Defined.

(** [storage() = default] leaves both members indeterminate. *)
Record storage := {
  buf : buffer;
  desc : option td_ptr
}.

Definition indeterminate : storage := {| buf := raw; desc := None |}.

Record state := {
  objs : gmap loc storage;
  heap : gmap addr (type_id * val);
  trace : list event
}.


Abbreviation cpp := (M state).

(** ** Memory primitives *)

Definition set_objs (f : gmap loc storage → gmap loc storage) (σ : state) : state :=
  {| objs := f (objs σ); heap := heap σ; trace := trace σ |}.

Definition set_heap (f : gmap addr (type_id * val) → gmap addr (type_id * val))
    (σ : state) : state :=
  {| objs := objs σ; heap := f (heap σ); trace := trace σ |}.

(** Record one operation on a wrapped object or on the allocator. *)
Definition emit (ev : event) : cpp unit := λ σ,
  Ret () {| objs := objs σ; heap := heap σ; trace := trace σ ++ [ev] |}.

(** Access through a [storage*]; a pointer to no storage is a fault. *)
Definition get_storage (p : loc) : cpp storage := λ σ,
  match objs σ !! p with
  | Some s => Ret s σ
  | None => Fault undefined_behaviour
  end.

Definition put_storage (p : loc) (s : storage) : cpp unit := λ σ,
  Ret () (set_objs <[p:=s]> σ).

(** [p->desc] as an rvalue: reading an indeterminate pointer is a fault. *)
Definition read_desc (p : loc) : cpp td_ptr :=
  let* s := get_storage p in
  match desc s with
  | Some d => ret d
  | None => ub
  end.

(** [p->desc = d] *)
Definition write_desc (p : loc) (d : td_ptr) : cpp unit :=
  let* s := get_storage p in
  put_storage p {| buf := buf s; desc := Some d |}.

Definition write_buf (p : loc) (b : buffer) : cpp unit :=
  let* s := get_storage p in
  put_storage p {| buf := b; desc := desc s |}.

(** ** The accessors of [storage] *)

(** [p->get_static<T>()]: the T living in the buffer. *)
Definition get_static (T : type_id) (p : loc) : cpp val :=
  let* s := get_storage p in
  match buf s with
  | inplace T' v => if decide (T' = T) then ret v else ub
  | _ => ub
  end.

(** [p->get_dynamic<T>()]: the buffer read as a [void*]; the cast to
    [T*] is unchecked. *)
Definition get_dynamic (T : type_id) (p : loc) : cpp addr :=
  let* s := get_storage p in
  match buf s with
  | address a => ret a
  | _ => ub
  end.

(** [p->set_dynamic(value)] *)
Definition set_dynamic (p : loc) (value : addr) : cpp unit :=
  write_buf p (address value).

(** ** Operations of the wrapped type and of the allocator *)

(** [T(x)] for an lvalue [x] holding [v]. *)
Definition T_copy (T : type_id) (v : val) : cpp val :=
  emit (ev_copy T);;
  match copy_construct (types E T) v with
  | inl e => throw e
  | inr v' => ret v'
  end.

(** What [T(T&&)] does on an object holding [v]. *)
Definition move_result (T : type_id) (v : val) : exn + val * val :=
  match move_construct (types E T) with
  | nothrow_move f => inr (f v)
  | throwing_move f => f v
  end.

(** [T(std::move(x))]: the new object and what is left in [x]. *)
Definition T_move (T : type_id) (v : val) : cpp (val * val) :=
  emit (ev_move T);;
  match move_result T v with
  | inl e => throw e
  | inr r => ret r
  end.

(** [x(args...)] for a const [x] holding [v]. *)
Definition T_call (T : type_id) (v : val) (args : Args) : cpp R :=
  match call (types E T) v args with
  | inl e => throw e
  | inr r => ret r
  end.

(** Calling the object behind a non-const [T* p], which holds [v]. *)
Definition T_call_lvalue (T : type_id) (p : addr) (v : val) (args : Args)
    : cpp R :=
  let r := call_lvalue (types E T) v args in
  (λ σ, Ret () (set_heap <[p:=(T, r.1)]> σ));;
  match r.2 with
  | inl e => throw e
  | inr x => ret x
  end.

(** [operator new(sizeof(T))]: a block at an unused address, or
    [std::bad_alloc] when the heap is full. *)
Definition operator_new : cpp addr := λ σ,
  if decide (size (heap σ) < heap_capacity E) then
    let a := fresh (dom (heap σ)) in
    (emit (ev_alloc a);; ret a) σ
  else Throw std_bad_alloc σ.

(** [new T(init)]: allocate, construct, and give the block back if the
    constructor throws. *)
Definition new_expr (T : type_id) (init : cpp val) : cpp addr :=
  let* a := operator_new in
  let* v := try_catch init (λ e, emit (ev_free a);; throw e) in
  (λ σ, Ret () (set_heap <[a:=(T, v)]> σ));;
  ret a.

(** [*p] for a [T* p] *)
Definition load (T : type_id) (p : addr) : cpp val := λ σ,
  match heap σ !! p with
  | Some (T', v) => if decide (T' = T) then Ret v σ else Fault undefined_behaviour
  | None => Fault undefined_behaviour
  end.

(** [delete p] for a [T* p]: destroy the pointee, free the block. *)
Definition delete_expr (T : type_id) (p : addr) : cpp unit :=
  let* _ := load T p in
  emit (ev_destroy T);;
  (λ σ, Ret () (set_heap (delete p) σ));;
  emit (ev_free p).

(** ** Type descriptors *)

Record type_descriptor := {
  copy : loc → loc → cpp unit;        (* void copy(storage* dst, storage const* src) *)
  move : loc → loc → cpp unit;        (* void move(storage* dst, storage* src) noexcept *)
  invoke : loc → Args → cpp R;        (* R invoke(storage const* src, Args...) *)
  destroy : loc → cpp unit            (* void destroy(storage* src) noexcept *)
}.

Definition empty_type_descriptor : td_ptr := td_empty.

(** The static [instance] inside [empty_type_descriptor]. *)
Definition empty_instance : type_descriptor := {|
  copy dst _ := write_desc dst empty_type_descriptor;
  move dst _ := noexcept (write_desc dst empty_type_descriptor);
  invoke _ _ := throw bad_function_call;
  destroy _ := noexcept (ret ())
|}.

(** [object_traits<T>] when [fits_small_storage<T>]: the object lives
    in the buffer. *)
Definition small_instance (T : type_id) : type_descriptor := {|
  copy dst src :=
    let* x := get_static T src in
    let* v := T_copy T x in
    write_buf dst (inplace T v);;
    let* d := read_desc src in
    write_desc dst d;
  move dst src := noexcept (
    let* x := get_static T src in
    let* r := T_move T x in
    write_buf src (inplace T r.2);;
    write_buf dst (inplace T r.1);;
    let* d := read_desc src in
    write_desc dst d);
  invoke src args :=
    let* x := get_static T src in
    T_call T x args;
  destroy src := noexcept (
    let* _ := get_static T src in
    emit (ev_destroy T);;
    write_buf src raw)
|}.

Definition small_initialize_storage (T : type_id) (stg : loc) (func_obj : val)
    : cpp unit :=
  let* r := T_move T func_obj in
  write_buf stg (inplace T r.1).

(** [object_traits<T>] when [!fits_small_storage<T>]: the buffer holds
    the address of a T on the heap.  [get_dynamic] is const but returns
    a [T*], so [invoke] calls the object as a non-const lvalue. *)
Definition dynamic_instance (T : type_id) : type_descriptor := {|
  copy dst src :=
    let* p := get_dynamic T src in
    let* a := new_expr T (let* x := load T p in T_copy T x) in
    set_dynamic dst a;;
    let* d := read_desc src in
    write_desc dst d;
  move dst src := noexcept (
    let* p := get_dynamic T src in
    set_dynamic dst p;;
    let* d := read_desc src in
    write_desc dst d;;
    write_desc src empty_type_descriptor);
  invoke src args :=
    let* p := get_dynamic T src in
    let* x := load T p in
    T_call_lvalue T p x args;
  destroy src := noexcept (
    let* p := get_dynamic T src in
    delete_expr T p)
|}.

Definition dynamic_initialize_storage (T : type_id) (stg : loc) (func_obj : val)
    : cpp unit :=
  let* a := new_expr T (let* r := T_move T func_obj in ret r.1) in
  set_dynamic stg a.

(** What a [T*] returned by [target] can be. *)
Inductive pointer :=
  | nullptr
  | to_buffer (p : loc)                       (* the T inside the storage at p *)
  | to_heap (a : addr).                       (* the T in the heap block a *)

Definition small_as_target (T : type_id) (stg : loc) : cpp pointer :=
  noexcept (ret (to_buffer stg)).

Definition dynamic_as_target (T : type_id) (stg : loc) : cpp pointer :=
  noexcept (let* p := get_dynamic T stg in ret (to_heap p)).

(** The choice between the two specialisations of [object_traits<T>],
    made by [enable_if] on [fits_small_storage<T>]. *)
Definition get_type_descriptor (T : type_id) : td_ptr := td_of T.

Definition initialize_storage (T : type_id) : loc → val → cpp unit :=
  if fits_small_storage T then small_initialize_storage T
  else dynamic_initialize_storage T.

Definition as_target (T : type_id) : loc → cpp pointer :=
  if fits_small_storage T then small_as_target T else dynamic_as_target T.

(** The table a descriptor pointer points to. *)
Definition deref (d : td_ptr) : type_descriptor :=
  match d with
  | td_empty => empty_instance
  | td_of T => if fits_small_storage T then small_instance T else dynamic_instance T
  end.

(** ** The container [function<R (Args...)>]

    A container is identified with the address of its member [stg]. *)

(** A constructor runs on memory whose members are indeterminate; if it
    throws, no object exists at [this]. *)
Definition constructor (this : loc) (body : cpp unit) : cpp unit := λ σ,
  match body (set_objs <[this:=indeterminate]> σ) with
  | Throw e σ' => Throw e (set_objs (delete this) σ')
  | o => o
  end.

(** A local [storage] variable: a fresh address for the extent of
    [body]. *)
Definition with_local {A} (body : loc → cpp A) : cpp A := λ σ,
  let p := fresh (dom (objs σ)) in
  match body p (set_objs <[p:=indeterminate]> σ) with
  | Ret a σ' => Ret a (set_objs (delete p) σ')
  | Throw e σ' => Throw e (set_objs (delete p) σ')
  | Fault k => Fault k
  end.

(** [function() noexcept] *)
Definition function_default (this : loc) : cpp unit :=
  constructor this (noexcept (write_desc this empty_type_descriptor)).

(** [function(function const& other)] *)
Definition function_copy (this other : loc) : cpp unit :=
  constructor this (
    let* d := read_desc other in
    copy (deref d) this other).

(** [function(function&& other) noexcept] *)
Definition function_move (this other : loc) : cpp unit :=
  constructor this (noexcept (
    let* d := read_desc other in
    move (deref d) this other)).

(** [template <typename T> function(T val)] *)
Definition function_from (T : type_id) (this : loc) (v : val) : cpp unit :=
  constructor this (
    write_desc this (get_type_descriptor T);;
    initialize_storage T this v).

(** [function& operator=(function const& rhs)] *)
Definition copy_assign (this rhs : loc) : cpp unit :=
  if decide (this = rhs) then ret ()
  else
    with_local (λ backup,
      (let* d := read_desc this in move (deref d) backup this);;
      (let* d := read_desc this in destroy (deref d) this);;
      try_catch
        (let* d := read_desc rhs in copy (deref d) this rhs)
        (λ e,
          (let* d := read_desc backup in move (deref d) this backup);;
          (let* d := read_desc backup in destroy (deref d) backup);;
          throw e);;
      (let* d := read_desc backup in destroy (deref d) backup)).

(** [function& operator=(function&& rhs) noexcept] *)
Definition move_assign (this rhs : loc) : cpp unit :=
  noexcept (
    if decide (this = rhs) then ret ()
    else
      (let* d := read_desc this in destroy (deref d) this);;
      (let* d := read_desc rhs in move (deref d) this rhs)).

(** [~function()]: afterwards no object exists at [this]. *)
Definition function_destructor (this : loc) : cpp unit :=
  (let* d := read_desc this in destroy (deref d) this);;
  (λ σ, Ret () (set_objs (delete this) σ)).

(** [explicit operator bool() const noexcept] *)
Definition operator_bool (this : loc) : cpp bool :=
  noexcept (
    let* d := read_desc this in
    ret (bool_decide (d ≠ empty_type_descriptor))).

(** [R operator()(Args... args) const] *)
Definition operator_call (this : loc) (args : Args) : cpp R :=
  let* d := read_desc this in
  invoke (deref d) this args.

(** [template <typename T> T* target() noexcept], and its const
    overload, which has the same body. *)
Definition target (T : type_id) (this : loc) : cpp pointer :=
  noexcept (
    let* d := read_desc this in
    if decide (d = get_type_descriptor T) then as_target T this
    else ret nullptr).

(** ** Well-formed states

    The interpretation of a buffer is fixed by the table its storage
    points to.  [content_of] reads a storage under that interpretation;
    it is undefined when the descriptor pointer is indeterminate or the
    buffer does not hold what the table expects. *)

Inductive content :=
  | nothing
  | object (T : type_id) (v : val).

Definition content_of (h : gmap addr (type_id * val)) (s : storage)
    : option content :=
  match desc s with
  | None => None
  | Some td_empty => Some nothing
  | Some (td_of T) =>
      if fits_small_storage T then
        match buf s with
        | inplace T' v => if decide (T' = T) then Some (object T v) else None
        | _ => None
        end
      else
        match buf s with
        | address a =>
            match h !! a with
            | Some (T', v) => if decide (T' = T) then Some (object T v) else None
            | None => None
            end
        | _ => None
        end
  end.

(** The three shapes of a readable storage. *)
Inductive shape (h : gmap addr (type_id * val)) : storage → content → Prop :=
  | shape_empty b :
      shape h {| buf := b; desc := Some td_empty |} nothing
  | shape_small T v :
      fits_small_storage T = true →
      shape h {| buf := inplace T v; desc := Some (td_of T) |} (object T v)
  | shape_dynamic T a v :
      fits_small_storage T = false →
      h !! a = Some (T, v) →
      shape h {| buf := address a; desc := Some (td_of T) |} (object T v).

(** The heap block a storage is responsible for freeing. *)
Definition owned (s : storage) : option addr :=
  match desc s with
  | Some (td_of T) =>
      if fits_small_storage T then None
      else match buf s with address a => Some a | _ => None end
  | _ => None
  end.

Definition wf_storage (h : gmap addr (type_id * val)) (s : storage) : Prop :=
  is_Some (content_of h s).

(** Every storage is readable under its table, and no heap block has
    two owners. *)
Definition wf_state (σ : state) : Prop :=
  map_Forall (λ _ s, wf_storage (heap σ) s) (objs σ)
  ∧ map_Forall (λ l1 s1,
      map_Forall (λ l2 s2,
        l1 ≠ l2 → is_Some (owned s1) → owned s1 ≠ owned s2) (objs σ)) (objs σ).

Global Instance wf_storage_dec h s : Decision (wf_storage h s).
Proof. unfold wf_storage. apply _. Defined.

Global Instance wf_state_dec σ : Decision (wf_state σ).
Proof. unfold wf_state. apply _. Defined.

(** What a caller sees of a computation: its result, without the state. *)
Inductive result (A : Type) :=
  | returns (a : A)
  | throws (e : exn)
  | faults (k : fault).
Global Arguments returns {A} a.
Global Arguments throws {A} e.
Global Arguments faults {A} k.

Definition observe {A} (o : outcome state A) : result A :=
  match o with
  | Ret a _ => returns a
  | Throw e _ => throws e
  | Fault k => faults k
  end.

(** The object a pointer returned by [target<T>] points to. *)
Definition pointee (T : type_id) (p : pointer) (σ : state) : option val :=
  match p with
  | nullptr => None
  | to_buffer l =>
      match objs σ !! l with
      | Some {| buf := inplace T' v |} => if decide (T' = T) then Some v else None
      | _ => None
      end
  | to_heap a =>
      match heap σ !! a with
      | Some (T', v) => if decide (T' = T) then Some v else None
      | None => None
      end
  end.

(** Whether copying a held value succeeds: the empty table copies
    nothing, an in-place object is copy-constructed, a heap object needs
    a block first. *)
Definition copy_outcome (h : gmap addr (type_id * val)) (c : content)
    : result unit :=
  match c with
  | nothing => returns ()
  | object T v =>
      if fits_small_storage T || bool_decide (size h < heap_capacity E) then
        match copy_construct (types E T) v with
        | inl e => throws e
        | inr _ => returns ()
        end
      else throws std_bad_alloc
  end.

(** [c'] is what copying [c] produced. *)
Definition copy_of (c c' : content) : Prop :=
  match c, c' with
  | nothing, nothing => True
  | object T v, object T' v' => T' = T ∧ copy_construct (types E T) v = inr v'
  | _, _ => False
  end.

(** The value the destination holds after a container move: for an
    in-place value the object its move constructor made, for a heap
    value the object itself. *)
Definition moved_value (T : type_id) (v : val) : val :=
  if fits_small_storage T then
    match move_result T v with
    | inr r => r.1
    | inl _ => v
    end
  else v.

(** What a failed copy assignment leaves in its target: a value in the
    buffer has been moved to the backup and back, so it has gone through
    the move constructor twice; an empty target and a value on the heap
    are as they were. *)
Definition twice_moved (c : content) : content :=
  match c with
  | nothing => nothing
  | object T v => object T (moved_value T (moved_value T v))
  end.

Definition restored (s : storage) : storage :=
  match s with
  | {| buf := inplace T v; desc := Some (td_of T') |} =>
      {| buf := inplace T (moved_value T' (moved_value T' v));
         desc := Some (td_of T') |}
  | _ => s
  end.

(** The C++ requirements on a wrapped type that the container's
    contract presupposes: a copy, when it does not throw, and a move
    produce an object with the value of their argument. *)
Definition CopyConstructible (T : type_id) : Prop :=
  ∀ v v', copy_construct (types E T) v = inr v' → v' = v.

Definition MoveConstructible (T : type_id) : Prop :=
  ∀ v r, move_result T v = inr r → r.1 = v.

(** Inside an assignment some storages are in between two lives: an
    in-place object already destroyed, a local not yet written.
    [wf_except X] asks for well-formedness of every storage outside [X]. *)
Definition wf_except (X : gset loc) (σ : state) : Prop :=
  (∀ l s, objs σ !! l = Some s → l ∉ X → wf_storage (heap σ) s)
  ∧ (∀ l1 l2 s1 s2 a,
       objs σ !! l1 = Some s1 → objs σ !! l2 = Some s2 →
       l1 ∉ X → l2 ∉ X → l1 ≠ l2 →
       owned s1 = Some a → owned s2 ≠ Some a).

(** The invariant of a function body: the storages outside [X] are
    well-formed and the storage objects are those at [D]. *)
Definition inv (X D : gset loc) (σ : state) : Prop :=
  wf_except X σ ∧ dom (objs σ) = D.

(** [triple P m Q Qe]: from a state in [P], [m] does not fault; it
    returns in [Q] or throws in [Qe]. *)
Definition triple {A} (P : state → Prop) (m : cpp A)
    (Q : A → state → Prop) (Qe : exn → state → Prop) : Prop :=
  ∀ σ, P σ →
    match m σ with
    | Ret a σ' => Q a σ'
    | Throw e σ' => Qe e σ'
    | Fault _ => False
    end.

(** Outside [X], every heap block has an owner. *)
Definition no_leak_except (X : gset loc) (σ : state) : Prop :=
  ∀ a, is_Some (heap σ !! a) →
    ∃ l s, objs σ !! l = Some s ∧ (l ∉ X) ∧ owned s = Some a.

(** The invariant of a function body, with the heap accounted for. *)
Definition tidy (X D : gset loc) (σ : state) : Prop :=
  inv X D σ ∧ no_leak_except X σ.

(** ** Programs over containers

    The members of [function] a client can call, each with the objects
    it is called on. *)
Inductive operation :=
  | op_default (this : loc)
  | op_from (T : type_id) (this : loc) (v : val)
  | op_copy (this other : loc)
  | op_move (this other : loc)
  | op_copy_assign (this rhs : loc)
  | op_move_assign (this rhs : loc)
  | op_destroy (this : loc)
  | op_invoke (this : loc) (args : Args).

Definition run (o : operation) : cpp unit :=
  match o with
  | op_default this => function_default this
  | op_from T this v => function_from T this v
  | op_copy this other => function_copy this other
  | op_move this other => function_move this other
  | op_copy_assign this rhs => copy_assign this rhs
  | op_move_assign this rhs => move_assign this rhs
  | op_destroy this => function_destructor this
  | op_invoke this args => let* _ := operator_call this args in ret ()
  end.

(** A constructor runs on memory that holds no object; every other
    operand is a live container. *)
Definition applicable (o : operation) (σ : state) : Prop :=
  match o with
  | op_default this | op_from _ this _ => objs σ !! this = None
  | op_copy this other | op_move this other =>
      objs σ !! this = None ∧ is_Some (objs σ !! other)
  | op_copy_assign this rhs | op_move_assign this rhs =>
      is_Some (objs σ !! this) ∧ is_Some (objs σ !! rhs)
  | op_destroy this | op_invoke this _ => is_Some (objs σ !! this)
  end.

Definition initial : state := {| objs := ∅; heap := ∅; trace := [] |}.

(** The states a program can be in: no object at first, then whatever
    the operations leave, whether they return or throw. *)
Inductive reachable : state → Prop :=
  | reachable_initial : reachable initial
  | reachable_return o σ σ' :
      reachable σ → applicable o σ → run o σ = Ret () σ' → reachable σ'
  | reachable_throw o σ e σ' :
      reachable σ → applicable o σ → run o σ = Throw e σ' → reachable σ'.

(** * Proofs *)

(** ** Symbolic execution *)

Lemma fits_nothrow T v :
  fits_small_storage T = true → ∃ r, move_result T v = inr r.
Proof.
  unfold fits_small_storage, is_nothrow_move_constructible, move_result.
  intros [_ H]%andb_true_iff.
  destruct (move_construct (types E T)); [eauto | done].
Qed.

(** Unfold the monad and the memory primitives, then chase lookups. *)
Ltac unfold_cpp :=
  unfold function_default, function_copy, function_move, function_from,
    function_destructor, operator_bool, operator_call, target,
    initialize_storage, as_target,
    constructor, with_local, noexcept, try_catch,
    small_initialize_storage, dynamic_initialize_storage,
    small_as_target, dynamic_as_target, new_expr, delete_expr, operator_new,
    load, T_copy, T_move, T_call, T_call_lvalue, set_dynamic, get_static, get_dynamic,
    write_buf, write_desc, read_desc, put_storage, get_storage, emit,
    bind, ret, throw, ub, set_objs, set_heap,
    empty_type_descriptor, get_type_descriptor in *.

Ltac lookups :=
  repeat first
    [ rewrite lookup_insert_eq
    | rewrite lookup_delete_eq
    | rewrite insert_insert_eq
    | rewrite delete_insert_eq
    | rewrite lookup_insert_ne by congruence
    | rewrite lookup_delete_ne by congruence
    | match goal with
      | H : ?m !! ?k = _ |- context [?m !! ?k] => rewrite H
      | H : ?x = _ |- context [match ?x with _ => _ end] => rewrite H
      | H : ?x = _ |- context [if ?x then _ else _] => rewrite H
      end
    | rewrite decide_True by done
    | rewrite decide_False by congruence ].

Ltac exec := repeat (progress (unfold_cpp; cbn -[fresh dom size] in *; lookups)).

Lemma content_of_shape h s c : content_of h s = Some c ↔ shape h s c.
Proof.
  split.
  - destruct s as [b [[|T]|]]; unfold content_of; cbn; [| |done].
    + intros [= <-]. constructor.
    + destruct (fits_small_storage T) eqn:Hfit.
      * destruct b as [|T' v|a]; try done.
        case_decide; [|done]. subst T'. intros [= <-]. by constructor.
      * destruct b as [|T' v|a]; try done.
        destruct (h !! a) as [[T' v]|] eqn:Ha; [|done].
        case_decide; [|done]. subst T'. intros [= <-]. by constructor.
  - destruct 1 as [b|T v Hfit|T a v Hfit Ha]; unfold content_of; cbn.
    + done.
    + rewrite Hfit. by rewrite decide_True.
    + rewrite Hfit, Ha. by rewrite decide_True.
Qed.

Lemma fresh_local (σ : state) : objs σ !! fresh (dom (objs σ)) = None.
Proof. apply not_elem_of_dom, is_fresh. Qed.

Lemma fresh_block (σ : state) : heap σ !! fresh (dom (heap σ)) = None.
Proof. apply not_elem_of_dom, is_fresh. Qed.

(** ** Reading a container *)

Lemma operator_bool_spec c s d σ :
  objs σ !! c = Some s → desc s = Some d →
  operator_bool c σ = Ret (bool_decide (d ≠ empty_type_descriptor)) σ.
Proof. intros Hc Hd. unfold operator_bool. by exec. Qed.

Lemma operator_bool_inv c b σ σ' :
  operator_bool c σ = Ret b σ' →
  σ' = σ ∧ ∃ s d, objs σ !! c = Some s ∧ desc s = Some d
                 ∧ b = bool_decide (d ≠ empty_type_descriptor).
Proof.
  unfold operator_bool. exec.
  destruct (objs σ !! c) as [s|] eqn:Hc; [|done]. exec.
  destruct (desc s) as [d|] eqn:Hd; [|done].
  intros [= <- <-]. split; [done|]. by exists s, d.
Qed.

Lemma operator_call_spec c s d args σ :
  objs σ !! c = Some s → desc s = Some d →
  operator_call c args σ = invoke (deref d) c args σ.
Proof. intros Hc Hd. unfold operator_call. by exec. Qed.

Lemma target_spec T c s d σ :
  objs σ !! c = Some s → desc s = Some d →
  target T c σ =
    if decide (d = get_type_descriptor T) then as_target T c σ else Ret nullptr σ.
Proof.
  intros Hc Hd. unfold target. exec.
  case_decide; [|done]. unfold as_target.
  by destruct (fits_small_storage T); exec; destruct (buf s).
Qed.

Lemma function_default_spec c σ :
  function_default c σ
  = Ret () (set_objs <[c:={| buf := raw; desc := Some empty_type_descriptor |}]> σ).
Proof.
  unfold function_default. exec. by rewrite ?insert_insert_eq.
Qed.

Lemma function_from_small T this v r σ :
  fits_small_storage T = true → move_result T v = inr r →
  function_from T this v σ
  = Ret () {| objs := <[this:={| buf := inplace T r.1;
                                 desc := Some (get_type_descriptor T) |}]> (objs σ);
              heap := heap σ;
              trace := trace σ ++ [ev_move T] |}.
Proof.
  intros Hfit Hmv. unfold function_from, initialize_storage. exec.
  by rewrite ?insert_insert_eq.
Qed.

Lemma function_from_dynamic T this v σ :
  fits_small_storage T = false →
  function_from T this v σ
  = if decide (size (heap σ) < heap_capacity E) then
      let a := fresh (dom (heap σ)) in
      match move_result T v with
      | inr r =>
          Ret () {| objs := <[this:={| buf := address a;
                                       desc := Some (get_type_descriptor T) |}]> (objs σ);
                    heap := <[a:=(T, r.1)]> (heap σ);
                    trace := trace σ ++ [ev_alloc a; ev_move T] |}
      | inl e =>
          Throw e {| objs := delete this (objs σ);
                     heap := heap σ;
                     trace := trace σ ++ [ev_alloc a; ev_move T; ev_free a] |}
      end
    else
      Throw std_bad_alloc {| objs := delete this (objs σ);
                             heap := heap σ;
                             trace := trace σ |}.
Proof.
  intros Hfit. unfold function_from, initialize_storage. exec.
  case_decide; exec.
  - destruct (move_result T v) as [e|r]; exec.
    + by rewrite ?delete_insert_eq, <-!(assoc_L (++)).
    + by rewrite ?insert_insert_eq, <-!(assoc_L (++)).
  - by rewrite ?delete_insert_eq.
Qed.

(** ** The table operations on distinct storages *)

Lemma move_small T dst src v d sd r σ :
  dst ≠ src →
  objs σ !! src = Some {| buf := inplace T v; desc := Some d |} →
  objs σ !! dst = Some sd →
  move_result T v = inr r →
  move (small_instance T) dst src σ
  = Ret () {| objs := <[dst:={| buf := inplace T r.1; desc := Some d |}]>
                        (<[src:={| buf := inplace T r.2; desc := Some d |}]> (objs σ));
              heap := heap σ;
              trace := trace σ ++ [ev_move T] |}.
Proof. intros. by exec. Qed.

Lemma move_dynamic T dst src a d sd σ :
  dst ≠ src →
  objs σ !! src = Some {| buf := address a; desc := Some d |} →
  objs σ !! dst = Some sd →
  move (dynamic_instance T) dst src σ
  = Ret () {| objs := <[src:={| buf := address a; desc := Some empty_type_descriptor |}]>
                        (<[dst:={| buf := address a; desc := Some d |}]> (objs σ));
              heap := heap σ;
              trace := trace σ |}.
Proof. intros. by exec. Qed.

Lemma destroy_small T src v d σ :
  objs σ !! src = Some {| buf := inplace T v; desc := d |} →
  destroy (small_instance T) src σ
  = Ret () {| objs := <[src:={| buf := raw; desc := d |}]> (objs σ);
              heap := heap σ;
              trace := trace σ ++ [ev_destroy T] |}.
Proof. intros. by exec. Qed.

Lemma destroy_dynamic T src a v d σ :
  objs σ !! src = Some {| buf := address a; desc := d |} →
  heap σ !! a = Some (T, v) →
  destroy (dynamic_instance T) src σ
  = Ret () {| objs := objs σ;
              heap := delete a (heap σ);
              trace := trace σ ++ [ev_destroy T; ev_free a] |}.
Proof. intros. exec. by rewrite <-(assoc_L (++)). Qed.

(** ** What well-formedness gives *)

Lemma wf_state_shape σ l s :
  wf_state σ → objs σ !! l = Some s → ∃ c, shape (heap σ) s c.
Proof.
  intros [Hwf _] Hl. destruct (Hwf l s Hl) as [c Hc].
  exists c. by apply content_of_shape.
Qed.

Lemma wf_state_owner σ l1 l2 s1 s2 a :
  wf_state σ → objs σ !! l1 = Some s1 → objs σ !! l2 = Some s2 →
  l1 ≠ l2 → owned s1 = Some a → owned s2 ≠ Some a.
Proof.
  intros [_ Hwf] H1 H2 Hne Ha Hb.
  apply (Hwf l1 s1 H1 l2 s2 H2 Hne); [by rewrite Ha|congruence].
Qed.

Lemma owned_dynamic T a :
  fits_small_storage T = false →
  owned {| buf := address a; desc := Some (td_of T) |} = Some a.
Proof. intros Hfit. unfold owned; cbn. by rewrite Hfit. Qed.

(** ** Copy construction, shape by shape *)

Lemma function_copy_empty d c b σ :
  objs σ !! c = Some {| buf := b; desc := Some td_empty |} →
  d ≠ c →
  function_copy d c σ
  = Ret () (set_objs <[d:={| buf := raw; desc := Some td_empty |}]> σ).
Proof. intros. by exec. Qed.

Lemma function_copy_small T d c v σ :
  fits_small_storage T = true →
  objs σ !! c = Some {| buf := inplace T v; desc := Some (td_of T) |} →
  d ≠ c →
  function_copy d c σ
  = match copy_construct (types E T) v with
    | inr v' =>
        Ret () {| objs := <[d:={| buf := inplace T v'; desc := Some (td_of T) |}]> (objs σ);
                  heap := heap σ;
                  trace := trace σ ++ [ev_copy T] |}
    | inl e =>
        Throw e {| objs := delete d (objs σ);
                   heap := heap σ;
                   trace := trace σ ++ [ev_copy T] |}
    end.
Proof. intros. exec. by destruct (copy_construct _ _); exec. Qed.

Lemma function_copy_dynamic T d c a v σ :
  fits_small_storage T = false →
  objs σ !! c = Some {| buf := address a; desc := Some (td_of T) |} →
  heap σ !! a = Some (T, v) →
  d ≠ c →
  function_copy d c σ
  = if decide (size (heap σ) < heap_capacity E) then
      let a' := fresh (dom (heap σ)) in
      match copy_construct (types E T) v with
      | inr v' =>
          Ret () {| objs := <[d:={| buf := address a'; desc := Some (td_of T) |}]> (objs σ);
                    heap := <[a':=(T, v')]> (heap σ);
                    trace := trace σ ++ [ev_alloc a'; ev_copy T] |}
      | inl e =>
          Throw e {| objs := delete d (objs σ);
                     heap := heap σ;
                     trace := trace σ ++ [ev_alloc a'; ev_copy T; ev_free a'] |}
      end
    else
      Throw std_bad_alloc {| objs := delete d (objs σ);
                             heap := heap σ;
                             trace := trace σ |}.
Proof.
  intros. exec. case_decide; exec; [|done].
  destruct (copy_construct _ _); exec; by rewrite <-!(assoc_L (++)).
Qed.

Lemma T_call_observe T v args (σ1 σ2 : state) :
  observe (T_call T v args σ1) = observe (T_call T v args σ2).
Proof. unfold T_call. by destruct (call _ _ _). Qed.

(** ** Observations read the objects and the heap only *)

Lemma operator_bool_frame c (σ σ' : state) :
  objs σ' = objs σ →
  observe (operator_bool c σ') = observe (operator_bool c σ).
Proof.
  intros Ho. unfold operator_bool. exec. rewrite Ho.
  destruct (objs σ !! c) as [[b [d|]]|]; by exec.
Qed.

Lemma operator_call_frame c args (σ σ' : state) :
  objs σ' = objs σ → heap σ' = heap σ →
  observe (operator_call c args σ') = observe (operator_call c args σ).
Proof.
  intros Ho Hh. unfold operator_call. exec. rewrite Ho.
  destruct (objs σ !! c) as [[b [[|T]|]]|] eqn:Hc; exec; try done.
  destruct (fits_small_storage T); exec; rewrite ?Ho, ?Hc; exec.
  - destruct b as [|T' v|a]; exec; try done.
    case_decide; [|done]. apply T_call_observe.
  - destruct b as [|T' v|a]; exec; try done. rewrite Hh.
    destruct (heap σ !! a) as [[T' v]|]; [|done].
    case_decide; [|done]. by destruct (call_lvalue (types E T) v args).2.
Qed.

Lemma target_frame T c (σ σ' : state) :
  objs σ' = objs σ →
  observe (target T c σ') = observe (target T c σ).
Proof.
  intros Ho. unfold target. exec. rewrite Ho.
  destruct (objs σ !! c) as [[b [d|]]|] eqn:Hc; exec; try done.
  case_decide; [|done].
  destruct (fits_small_storage T); exec; [done|].
  rewrite Ho, Hc. by destruct b.
Qed.

Ltac map_ext :=
  apply map_eq; intros ?;
  repeat (rewrite lookup_insert || rewrite lookup_delete);
  repeat case_decide; subst; congruence.

(** ** What a failed copy assignment restores *)

Lemma restored_small T v r1 r2 :
  fits_small_storage T = true →
  move_result T v = inr r1 → move_result T r1.1 = inr r2 →
  restored {| buf := inplace T v; desc := Some (td_of T) |}
  = {| buf := inplace T r2.1; desc := Some (td_of T) |}.
Proof.
  intros Hfit Hr1 Hr2. unfold restored, moved_value.
  rewrite Hfit, Hr1. cbn. by rewrite Hr2.
Qed.

Lemma restored_dynamic a d :
  restored {| buf := address a; desc := d |} = {| buf := address a; desc := d |}.
Proof. done. Qed.

Lemma restored_empty b :
  restored {| buf := b; desc := Some td_empty |} = {| buf := b; desc := Some td_empty |}.
Proof. by destruct b. Qed.

Lemma restored_desc s : desc (restored s) = desc s.
Proof. by destruct s as [[|T v|a] [[|T']|]]. Qed.

Lemma restored_shape h s c : shape h s c → shape h (restored s) (twice_moved c).
Proof.
  intros [b|T v Hfit|T a v Hfit Ha].
  - rewrite restored_empty. constructor.
  - by constructor.
  - cbn. unfold moved_value. rewrite Hfit. by constructor.
Qed.

(** Nothing is to be restored in an empty target or one whose value is
    on the heap, nor when the move constructor preserves the value. *)
Lemma restored_id h s c :
  shape h s c →
  (∀ T v, c = object T v → fits_small_storage T = true → MoveConstructible T) →
  restored s = s.
Proof.
  intros [b|T v Hfit|T a v Hfit Ha] Hmv.
  - apply restored_empty.
  - destruct (fits_nothrow T v Hfit) as [r1 Hr1].
    destruct (fits_nothrow T r1.1 Hfit) as [r2 Hr2].
    rewrite (restored_small T v r1 r2 Hfit Hr1 Hr2).
    by rewrite (Hmv T v eq_refl Hfit r1.1 r2 Hr2), (Hmv T v eq_refl Hfit v r1 Hr1).
  - done.
Qed.

Lemma operator_bool_restored c s (σ σ' : state) :
  objs σ !! c = Some s →
  objs σ' = <[c:=restored s]> (objs σ) →
  observe (operator_bool c σ') = observe (operator_bool c σ).
Proof.
  intros Hc Ho. unfold operator_bool. exec. rewrite Ho, lookup_insert_eq, ?Hc.
  pose proof (restored_desc s) as Hd.
  destruct (restored s) as [b' d'], s as [b d]. cbn in Hd. subst d'.
  by destruct d.
Qed.

Lemma target_restored T c s (σ σ' : state) :
  objs σ !! c = Some s →
  objs σ' = <[c:=restored s]> (objs σ) →
  observe (target T c σ') = observe (target T c σ).
Proof.
  intros Hc Ho. unfold target. exec. rewrite Ho, lookup_insert_eq, ?Hc.
  destruct s as [[|T' v|a] [[|T'']|]]; exec; try done.
  all: case_decide; [|done].
  all: destruct (fits_small_storage T); exec; [done|].
  all: by rewrite ?Ho, ?lookup_insert_eq, ?Hc.
Qed.

(** ** Copy assignment, path by path

    Three shapes of the target, three of the right-hand side, and for
    the latter the ways its copy can fail. *)
Lemma copy_assign_outcome (this rhs : loc) (s r : storage) (ct cr : content)
    (σ : state) :
  wf_state σ →
  objs σ !! this = Some s →
  objs σ !! rhs = Some r →
  content_of (heap σ) s = Some ct →
  content_of (heap σ) r = Some cr →
  this ≠ rhs →
  observe (copy_assign this rhs σ) = copy_outcome (heap σ) cr
  ∧ match copy_assign this rhs σ with
    | Throw e σ' => objs σ' = <[this:=restored s]> (objs σ) ∧ heap σ' = heap σ
    | Ret _ σ' =>
        ∃ s' c',
          objs σ' = <[this:=s']> (objs σ)
          ∧ desc s' = desc r
          ∧ content_of (heap σ') s' = Some c'
          ∧ copy_of cr c'
          ∧ content_of (heap σ') r = Some cr
          ∧ (∀ a, owned s' = Some a → heap σ !! a = None)
    | Fault _ => False
    end.
Proof.
  intros Hwf Hs Hr Hct Hcr Hne.
  pose proof (λ a, wf_state_owner σ this rhs s r a Hwf Hs Hr Hne) as Hown.
  apply content_of_shape in Hct. apply content_of_shape in Hcr.
  unfold copy_assign. rewrite decide_False by done.
  unfold with_local.
  pose proof (fresh_local σ) as Hb.
  set (b := fresh (dom (objs σ))) in *.
  assert (b ≠ this) by congruence. assert (b ≠ rhs) by congruence.
  pose proof (fresh_block σ) as Ha'.
  destruct Hct as [bf|T v Hfit|T a v Hfit Ha];
    destruct Hcr as [bf'|U w Hfit'|U aw w Hfit' Haw].
  (* an in-place target is moved to the backup and, on failure, back *)
  all: try (destruct (fits_nothrow T v Hfit) as [r1 Hr1];
            destruct (fits_nothrow T r1.1 Hfit) as [r2 Hr2];
            rewrite (restored_small T v r1 r2 Hfit Hr1 Hr2)).
  all: rewrite ?restored_dynamic, ?restored_empty.
  (* the blocks in play are distinct *)
  all: try (assert (a ≠ aw) by
         (intros ->; eapply Hown; by apply owned_dynamic)).
  all: try assert (fresh (dom (heap σ)) ≠ a) by congruence.
  all: try assert (fresh (dom (heap σ)) ≠ aw) by congruence.
  all: exec.
  all: try (destruct (decide (size (heap σ) < heap_capacity E)) as [Hcap|Hcap];
         [ rewrite (bool_decide_eq_true_2 _ Hcap)
         | rewrite (bool_decide_eq_false_2 _ Hcap) ]; exec).
  all: try (destruct (copy_construct (types E U) w) as [e|w'] eqn:Hw; exec).
  all: split; [done|].
  (* failure: the target is restored, the other objects are as they were *)
  all: try (split; [map_ext|done]).
  (* success: the target is overwritten by the copy *)
  all: match goal with
       | |- ∃ s' c', delete _ (<[_:=?X]> _) = _ ∧ _ => exists X
       end.
  all: eexists; split; [map_ext|]; split; [done|].
  all: unfold content_of, owned; exec.
  all: split; [reflexivity|]; split; [done|]; split; [done|].
  all: try done.
  all: by intros ? [= <-].
Qed.

(** ** Well-formedness, step by step *)

Lemma wf_state_except σ : wf_state σ ↔ wf_except ∅ σ.
Proof.
  unfold wf_state, wf_except, map_Forall. split.
  - intros [H1 H2]. split; [by eauto|].
    intros l1 l2 s1 s2 a Hl1 Hl2 _ _ Hne Ha Hb.
    apply (H2 l1 s1 Hl1 l2 s2 Hl2 Hne); [by rewrite Ha|congruence].
  - intros [H1 H2]. split; [intros l s Hl; by eapply H1|].
    intros l1 s1 Hl1 l2 s2 Hl2 Hne [a Ha] Heq.
    eapply (H2 l1 l2 s1 s2 a); try done. congruence.
Qed.

Lemma wf_except_weaken X Y σ : wf_except X σ → X ⊆ Y → wf_except Y σ.
Proof.
  intros [H1 H2] HXY. split.
  - intros l s Hl Hn. apply (H1 l s Hl). set_solver.
  - intros l1 l2 s1 s2 a Hl1 Hl2 Hn1 Hn2. apply (H2 l1 l2 s1 s2 a Hl1 Hl2); set_solver.
Qed.

Lemma wf_except_ext X σ σ' :
  wf_except X σ → objs σ' = objs σ → heap σ' = heap σ → wf_except X σ'.
Proof. unfold wf_except. intros H Ho Hh. by rewrite Ho, Hh. Qed.

Lemma wf_except_shape X σ l s :
  wf_except X σ → objs σ !! l = Some s → l ∉ X → ∃ c, shape (heap σ) s c.
Proof.
  intros [H1 _] Hl Hn. destruct (H1 l s Hl Hn) as [c Hc].
  exists c. by apply content_of_shape.
Qed.

Lemma wf_storage_insert h a x s :
  h !! a = None → wf_storage h s → wf_storage (<[a:=x]> h) s.
Proof.
  intros Ha [c Hc]. exists c.
  apply content_of_shape in Hc. apply content_of_shape.
  destruct Hc; constructor; try done.
  rewrite lookup_insert_ne; [done|congruence].
Qed.

Lemma wf_storage_delete h a s :
  owned s ≠ Some a → wf_storage h s → wf_storage (delete a h) s.
Proof.
  intros Ha [c Hc]. exists c.
  apply content_of_shape in Hc. apply content_of_shape.
  destruct Hc as [b|T v Hfit|T a' v Hfit Ha']; constructor; try done.
  rewrite lookup_delete_ne; [done|].
  intros ->. by rewrite owned_dynamic in Ha.
Qed.

Lemma owned_in_heap h s a :
  wf_storage h s → owned s = Some a → is_Some (h !! a).
Proof.
  intros [c Hc]. apply content_of_shape in Hc.
  destruct Hc as [b|T v Hfit|T a' v Hfit Ha']; unfold owned; cbn;
    rewrite ?Hfit; try done.
  by intros [= <-].
Qed.

Lemma wf_except_exempt X l s σ σ' :
  wf_except X σ →
  objs σ' = <[l:=s]> (objs σ) → heap σ' = heap σ →
  wf_except (X ∪ {[l]}) σ'.
Proof.
  intros [H1 H2] Ho Hh. split.
  - intros l' s'. rewrite Ho, Hh. intros Hl' Hn.
    rewrite lookup_insert_ne in Hl' by set_solver.
    apply (H1 l' s' Hl'). set_solver.
  - intros l1 l2 s1 s2 a. rewrite Ho. intros Hl1 Hl2 Hn1 Hn2.
    rewrite lookup_insert_ne in Hl1 by set_solver.
    rewrite lookup_insert_ne in Hl2 by set_solver.
    apply (H2 l1 l2 s1 s2 a Hl1 Hl2); set_solver.
Qed.

Lemma wf_except_delete X l σ σ' :
  wf_except X σ →
  objs σ' = delete l (objs σ) → heap σ' = heap σ →
  wf_except (X ∖ {[l]}) σ'.
Proof.
  intros [H1 H2] Ho Hh. split.
  - intros l' s'. rewrite Ho, Hh. intros [Hne Hl']%lookup_delete_Some Hn.
    apply (H1 l' s' Hl'). set_solver.
  - intros l1 l2 s1 s2 a. rewrite Ho.
    intros [Hne1 Hl1]%lookup_delete_Some [Hne2 Hl2]%lookup_delete_Some Hn1 Hn2.
    apply (H2 l1 l2 s1 s2 a Hl1 Hl2); set_solver.
Qed.

(** Writing a storage that owns no block. *)
Lemma wf_except_insert X l s σ σ' :
  wf_except X σ →
  wf_storage (heap σ) s → owned s = None →
  objs σ' = <[l:=s]> (objs σ) → heap σ' = heap σ →
  wf_except (X ∖ {[l]}) σ'.
Proof.
  intros [H1 H2] Hs Hown Ho Hh. split.
  - intros l' s'. rewrite Ho, Hh. intros Hl' Hn.
    destruct (decide (l' = l)) as [->|Hne].
    + rewrite lookup_insert_eq in Hl'. by inversion Hl'; subst.
    + rewrite lookup_insert_ne in Hl' by done.
      apply (H1 l' s' Hl'). set_solver.
  - intros l1 l2 s1 s2 a. rewrite Ho. intros Hl1 Hl2 Hn1 Hn2 Hne Ha.
    destruct (decide (l1 = l)) as [->|Hne1].
    { rewrite lookup_insert_eq in Hl1. inversion Hl1; subst. congruence. }
    destruct (decide (l2 = l)) as [->|Hne2].
    { rewrite lookup_insert_eq in Hl2. inversion Hl2; subst. congruence. }
    rewrite lookup_insert_ne in Hl1 by done.
    rewrite lookup_insert_ne in Hl2 by done.
    apply (H2 l1 l2 s1 s2 a Hl1 Hl2); set_solver.
Qed.

(** Writing the address of a block that was just allocated. *)
Lemma wf_except_insert_block X l T a v σ σ' :
  wf_except X σ →
  fits_small_storage T = false → heap σ !! a = None →
  objs σ' = <[l:={| buf := address a; desc := Some (td_of T) |}]> (objs σ) →
  heap σ' = <[a:=(T, v)]> (heap σ) →
  wf_except (X ∖ {[l]}) σ'.
Proof.
  intros [H1 H2] Hfit Ha Ho Hh.
  assert (Hnew : ∀ l' s', l' ≠ l → l' ∉ X ∖ {[l]} → objs σ !! l' = Some s' →
                 owned s' ≠ Some a).
  { intros l' s' Hne Hn Hl' Hown.
    destruct (owned_in_heap (heap σ) s' a) as [x Hx]; [|done|congruence].
    apply (H1 l' s' Hl'). set_solver. }
  split.
  - intros l' s'. rewrite Ho, Hh. intros Hl' Hn.
    destruct (decide (l' = l)) as [->|Hne].
    + rewrite lookup_insert_eq in Hl'. inversion Hl'; subst.
      exists (object T v). apply content_of_shape. constructor; [done|].
      apply lookup_insert_eq.
    + rewrite lookup_insert_ne in Hl' by done.
      apply wf_storage_insert; [done|]. apply (H1 l' s' Hl'). set_solver.
  - intros l1 l2 s1 s2 a'. rewrite Ho. intros Hl1 Hl2 Hn1 Hn2 Hne Hown.
    destruct (decide (l1 = l)) as [->|Hne1].
    { rewrite lookup_insert_eq in Hl1. inversion Hl1; subst.
      rewrite owned_dynamic in Hown by done. inversion Hown; subst.
      rewrite lookup_insert_ne in Hl2 by done. by eapply Hnew. }
    destruct (decide (l2 = l)) as [->|Hne2].
    { rewrite lookup_insert_eq in Hl2. inversion Hl2; subst.
      rewrite owned_dynamic by done. intros [= ->].
      rewrite lookup_insert_ne in Hl1 by done. by eapply (Hnew l1). }
    rewrite lookup_insert_ne in Hl1 by done.
    rewrite lookup_insert_ne in Hl2 by done.
    apply (H2 l1 l2 s1 s2 a' Hl1 Hl2); set_solver.
Qed.

(** Handing a block over from [src] to [dst]. *)
Lemma wf_except_transfer X dst src T a σ σ' :
  wf_except X σ →
  src ∉ X → dst ≠ src →
  objs σ !! src = Some {| buf := address a; desc := Some (td_of T) |} →
  fits_small_storage T = false →
  objs σ' = <[src:={| buf := address a; desc := Some td_empty |}]>
              (<[dst:={| buf := address a; desc := Some (td_of T) |}]> (objs σ)) →
  heap σ' = heap σ →
  wf_except (X ∖ {[dst]}) σ'.
Proof.
  intros [H1 H2] Hsrc Hne Hs Hfit Ho Hh.
  pose proof (owned_dynamic T a Hfit) as Hown.
  split.
  - intros l' s'. rewrite Ho, Hh. intros Hl' Hn.
    destruct (decide (l' = src)) as [->|Hne1].
    { rewrite lookup_insert_eq in Hl'. inversion Hl'; subst. by exists nothing. }
    rewrite lookup_insert_ne in Hl' by done.
    destruct (decide (l' = dst)) as [->|Hne2].
    { rewrite lookup_insert_eq in Hl'. inversion Hl'; subst.
      by apply (H1 src _ Hs). }
    rewrite lookup_insert_ne in Hl' by done.
    apply (H1 l' s' Hl'). set_solver.
  - assert (Hother : ∀ l' s', l' ≠ src → l' ≠ dst → l' ∉ X ∖ {[dst]} →
                     objs σ !! l' = Some s' → owned s' ≠ Some a).
    { intros l' s' ? ? ? Hl'.
      apply (H2 src l' _ s' a Hs Hl'); [done|set_solver|done|done]. }
    intros l1 l2 s1 s2 a'. rewrite Ho. intros Hl1 Hl2 Hn1 Hn2 Hne12 Ha'.
    destruct (decide (l1 = src)) as [->|Hne1].
    { rewrite lookup_insert_eq in Hl1. by inversion Hl1; subst. }
    rewrite lookup_insert_ne in Hl1 by done.
    destruct (decide (l2 = src)) as [->|Hne2].
    { rewrite lookup_insert_eq in Hl2. by inversion Hl2; subst. }
    rewrite lookup_insert_ne in Hl2 by done.
    destruct (decide (l1 = dst)) as [->|Hne3].
    { rewrite lookup_insert_eq in Hl1. inversion Hl1; subst.
      rewrite Hown in Ha'. inversion Ha'; subst.
      rewrite lookup_insert_ne in Hl2 by done. by eapply Hother. }
    rewrite lookup_insert_ne in Hl1 by done.
    destruct (decide (l2 = dst)) as [->|Hne4].
    { rewrite lookup_insert_eq in Hl2. inversion Hl2; subst.
      rewrite Hown. intros [= ->]. by eapply (Hother l1). }
    rewrite lookup_insert_ne in Hl2 by done.
    apply (H2 l1 l2 s1 s2 a' Hl1 Hl2); set_solver.
Qed.

(** Freeing the block of [src]. *)
Lemma wf_except_free_block X src s a σ σ' :
  wf_except X σ →
  src ∉ X → objs σ !! src = Some s → owned s = Some a →
  objs σ' = objs σ → heap σ' = delete a (heap σ) →
  wf_except (X ∪ {[src]}) σ'.
Proof.
  intros [H1 H2] Hsrc Hs Hown Ho Hh. split.
  - intros l' s'. rewrite Ho, Hh. intros Hl' Hn.
    apply wf_storage_delete; [|apply (H1 l' s' Hl'); set_solver].
    apply (H2 src l' s s' a Hs Hl'); [done| |  |done]; set_solver.
  - intros l1 l2 s1 s2 a'. rewrite Ho. intros Hl1 Hl2 Hn1 Hn2.
    apply (H2 l1 l2 s1 s2 a' Hl1 Hl2); set_solver.
Qed.

(** ** A small program logic *)

Lemma triple_bind {A B} P (m : cpp A) (k : A → cpp B) Q S Qe :
  triple P m Q Qe → (∀ a, triple (Q a) (k a) S Qe) →
  triple P (bind m k) S Qe.
Proof.
  intros Hm Hk σ HP. specialize (Hm σ HP). unfold bind.
  destruct (m σ) as [a σ'|e σ'|f]; [by apply Hk|done|done].
Qed.

Lemma triple_try_catch {A} P (m : cpp A) h Q Qe Qe' :
  triple P m Q Qe' → (∀ e, triple (Qe' e) (h e) Q Qe) →
  triple P (try_catch m h) Q Qe.
Proof.
  intros Hm Hh σ HP. specialize (Hm σ HP). unfold try_catch.
  destruct (m σ) as [a σ'|e σ'|f]; [done|by apply Hh|done].
Qed.

Lemma triple_noexcept {A} P (m : cpp A) Q Qe :
  triple P m Q (λ _ _, False) → triple P (noexcept m) Q Qe.
Proof.
  intros Hm σ HP. specialize (Hm σ HP). unfold noexcept.
  by destruct (m σ).
Qed.

Lemma inv_weaken X Y D σ : inv X D σ → X ⊆ Y → inv Y D σ.
Proof. intros [H1 H2] HXY. split; [by eapply wf_except_weaken|done]. Qed.

Lemma inv_lookup X D σ l :
  inv X D σ → l ∈ D → ∃ s, objs σ !! l = Some s.
Proof. intros [_ <-] [s Hs]%elem_of_dom. eauto. Qed.

(** ** The table operations keep the invariant *)

Lemma virtual_move_spec X X' D dst src Qe :
  src ∈ D → src ∉ X → dst ∈ D → dst ≠ src → X ∖ {[dst]} ⊆ X' →
  triple (inv X D)
    (let* d := read_desc src in move (deref d) dst src)
    (λ _, inv X' D) Qe.
Proof.
  intros Hsrc Hn Hdst Hne HX σ Hinv.
  destruct (inv_lookup _ _ _ _ Hinv Hsrc) as [ss Hs].
  destruct (inv_lookup _ _ _ _ Hinv Hdst) as [sd Hd].
  destruct Hinv as [Hwf Hdom].
  assert (Hin : dst ∈ dom (objs σ)) by by rewrite Hdom.
  assert (Hin' : src ∈ dom (objs σ)) by by rewrite Hdom.
  destruct (wf_except_shape X σ src ss Hwf Hs Hn) as [c Hc].
  destruct Hc as [b|T v Hfit|T a v Hfit Ha].
  - exec. eapply inv_weaken; [|done]. split.
    + eapply wf_except_insert; [done| | |reflexivity|reflexivity];
        [by exists nothing|done].
    + cbn. rewrite dom_insert_L. set_solver.
  - destruct (fits_nothrow T v Hfit) as [r Hr]. exec.
    eapply inv_weaken; [|done].
    set (σ1 := {| objs := <[src:={| buf := inplace T r.2;
                                    desc := Some (td_of T) |}]> (objs σ);
                  heap := heap σ; trace := trace σ |}).
    assert (wf_except X σ1) as Hwf1.
    { apply (wf_except_weaken (X ∖ {[src]}) X); [|set_solver].
      eapply (wf_except_insert X src _ σ σ1); [done| | |reflexivity|reflexivity].
      - exists (object T r.2). apply content_of_shape. by constructor.
      - unfold owned; cbn. by rewrite Hfit. }
    split.
    + eapply (wf_except_insert X dst _ σ1); [done| | |reflexivity|reflexivity].
      * exists (object T r.1). apply content_of_shape. by constructor.
      * unfold owned; cbn. by rewrite Hfit.
    + cbn. rewrite !dom_insert_L. set_solver.
  - exec. eapply inv_weaken; [|done]. split.
    + by eapply wf_except_transfer.
    + cbn. rewrite !dom_insert_L. set_solver.
Qed.

Lemma virtual_destroy_spec X X' D src Qe :
  src ∈ D → src ∉ X → X ∪ {[src]} ⊆ X' →
  triple (inv X D)
    (let* d := read_desc src in destroy (deref d) src)
    (λ _, inv X' D) Qe.
Proof.
  intros Hsrc Hn HX σ Hinv.
  destruct (inv_lookup _ _ _ _ Hinv Hsrc) as [ss Hs].
  destruct Hinv as [Hwf Hdom].
  assert (Hin : src ∈ dom (objs σ)) by by rewrite Hdom.
  destruct (wf_except_shape X σ src ss Hwf Hs Hn) as [c Hc].
  destruct Hc as [b|T v Hfit|T a v Hfit Ha].
  - exec. eapply inv_weaken; [done|set_solver].
  - exec. eapply inv_weaken; [|done]. split.
    + by eapply wf_except_exempt.
    + cbn. rewrite dom_insert_L. set_solver.
  - exec. eapply inv_weaken; [|done]. split; [|done].
    eapply wf_except_free_block; try done. by apply owned_dynamic.
Qed.

Lemma virtual_copy_spec X X' D dst src :
  src ∈ D → src ∉ X → dst ∈ D → dst ≠ src → X ∖ {[dst]} ⊆ X' →
  triple (inv X D)
    (let* d := read_desc src in copy (deref d) dst src)
    (λ _, inv X' D) (λ _, inv X D).
Proof.
  intros Hsrc Hn Hdst Hne HX σ Hinv.
  destruct (inv_lookup _ _ _ _ Hinv Hsrc) as [ss Hs].
  destruct (inv_lookup _ _ _ _ Hinv Hdst) as [sd Hd].
  destruct Hinv as [Hwf Hdom].
  assert (Hin : dst ∈ dom (objs σ)) by by rewrite Hdom.
  destruct (wf_except_shape X σ src ss Hwf Hs Hn) as [c Hc].
  destruct Hc as [b|T v Hfit|T a v Hfit Ha].
  - exec. eapply inv_weaken; [|done]. split.
    + eapply wf_except_insert; [done| | |reflexivity|reflexivity];
        [by exists nothing|done].
    + cbn. rewrite dom_insert_L. set_solver.
  - exec. destruct (copy_construct (types E T) v) as [e|v'] eqn:Hv; exec.
    + split; [by eapply wf_except_ext|done].
    + eapply inv_weaken; [|done]. split.
      * eapply wf_except_insert; [done| | |reflexivity|reflexivity].
        -- exists (object T v'). apply content_of_shape. by constructor.
        -- unfold owned; cbn. by rewrite Hfit.
      * cbn. rewrite dom_insert_L. set_solver.
  - exec. case_decide; exec; [|split; [by eapply wf_except_ext|done]].
    destruct (copy_construct (types E T) v) as [e|v'] eqn:Hv; exec.
    + split; [by eapply wf_except_ext|done].
    + eapply inv_weaken; [|done]. split.
      * eapply wf_except_insert_block; [done|done| |reflexivity|reflexivity].
        apply fresh_block.
      * cbn. rewrite dom_insert_L. set_solver.
Qed.

(** ** The members of [function] keep the invariant *)

Lemma triple_constructor D this body :
  this ∉ D →
  triple (inv {[this]} ({[this]} ∪ D)) body
    (λ _, inv ∅ ({[this]} ∪ D)) (λ _, inv {[this]} ({[this]} ∪ D)) →
  triple (inv ∅ D) (constructor this body)
    (λ _, inv ∅ ({[this]} ∪ D)) (λ _, inv ∅ D).
Proof.
  intros Hthis Hbody σ [Hwf Hdom]. unfold constructor.
  assert (inv {[this]} ({[this]} ∪ D) (set_objs <[this:=indeterminate]> σ))
    as Hpre.
  { split; [|by cbn; rewrite dom_insert_L, Hdom].
    apply (wf_except_weaken (∅ ∪ {[this]})); [|set_solver].
    by eapply wf_except_exempt. }
  specialize (Hbody _ Hpre).
  destruct (body _) as [a σ'|e σ'|k]; [done| |done].
  destruct Hbody as [Hwf' Hdom']. split.
  - apply (wf_except_weaken ({[this]} ∖ {[this]})); [|set_solver].
    by eapply wf_except_delete.
  - cbn. rewrite dom_delete_L, Hdom'. set_solver.
Qed.

Lemma triple_with_local {A} D (body : loc → cpp A) :
  (∀ b, b ∉ D →
     triple (inv {[b]} ({[b]} ∪ D)) (body b)
       (λ _, inv {[b]} ({[b]} ∪ D)) (λ _, inv {[b]} ({[b]} ∪ D))) →
  triple (inv ∅ D) (with_local body) (λ _, inv ∅ D) (λ _, inv ∅ D).
Proof.
  intros Hbody σ [Hwf Hdom]. unfold with_local.
  set (b := fresh (dom (objs σ))).
  assert (b ∉ D) as Hb by (rewrite <-Hdom; apply is_fresh).
  specialize (Hbody b Hb (set_objs <[b:=indeterminate]> σ)).
  assert (∀ σ', inv {[b]} ({[b]} ∪ D) σ' → inv ∅ D (set_objs (delete b) σ'))
    as Hout.
  { intros σ' [Hwf' Hdom']. split.
    - apply (wf_except_weaken ({[b]} ∖ {[b]})); [|set_solver].
      by eapply wf_except_delete.
    - cbn. rewrite dom_delete_L, Hdom'. set_solver. }
  assert (inv {[b]} ({[b]} ∪ D) (set_objs <[b:=indeterminate]> σ)) as Hpre.
  { split; [|by cbn; rewrite dom_insert_L, Hdom].
    apply (wf_except_weaken (∅ ∪ {[b]})); [|set_solver].
    by eapply wf_except_exempt. }
  specialize (Hbody Hpre).
  destruct (body b _) as [a σ'|e σ'|k]; [by apply Hout|by apply Hout|done].
Qed.

Lemma function_default_inv D this :
  triple (inv ∅ D) (function_default this)
    (λ _, inv ∅ ({[this]} ∪ D)) (λ _, inv ∅ D).
Proof.
  intros σ [Hwf Hdom]. rewrite function_default_spec. split.
  - apply (wf_except_weaken (∅ ∖ {[this]})); [|set_solver].
    eapply wf_except_insert; [done| | |reflexivity|reflexivity];
      [by exists nothing|done].
  - cbn. by rewrite dom_insert_L, Hdom.
Qed.

Lemma function_from_inv D T this v :
  this ∉ D →
  triple (inv ∅ D) (function_from T this v)
    (λ _, inv ∅ ({[this]} ∪ D)) (λ _, inv ∅ D).
Proof.
  intros Hthis σ [Hwf Hdom].
  assert (Hfree : delete this (objs σ) = objs σ).
  { apply delete_id, not_elem_of_dom. by rewrite Hdom. }
  destruct (fits_small_storage T) eqn:Hfit.
  - destruct (fits_nothrow T v Hfit) as [r Hr].
    rewrite (function_from_small T this v r σ Hfit Hr). split.
    + apply (wf_except_weaken (∅ ∖ {[this]})); [|set_solver].
      eapply wf_except_insert; [done| | |reflexivity|reflexivity].
      * exists (object T r.1). apply content_of_shape. by constructor.
      * unfold owned; cbn. by rewrite Hfit.
    + cbn. by rewrite dom_insert_L, Hdom.
  - rewrite (function_from_dynamic T this v σ Hfit).
    case_decide; [|split; [by eapply wf_except_ext|by cbn; rewrite Hfree]].
    cbn. destruct (move_result T v) as [e|r].
    + split; [by eapply wf_except_ext|by cbn; rewrite Hfree].
    + split.
      * apply (wf_except_weaken (∅ ∖ {[this]})); [|set_solver].
        eapply wf_except_insert_block; [done|done| |reflexivity|reflexivity].
        apply fresh_block.
      * cbn. by rewrite dom_insert_L, Hdom.
Qed.

Lemma function_copy_inv D this other :
  this ∉ D → other ∈ D →
  triple (inv ∅ D) (function_copy this other)
    (λ _, inv ∅ ({[this]} ∪ D)) (λ _, inv ∅ D).
Proof.
  intros Hthis Hother. apply triple_constructor; [done|].
  apply virtual_copy_spec; set_solver.
Qed.

Lemma function_move_inv D this other :
  this ∉ D → other ∈ D →
  triple (inv ∅ D) (function_move this other)
    (λ _, inv ∅ ({[this]} ∪ D)) (λ _, inv ∅ D).
Proof.
  intros Hthis Hother. apply triple_constructor; [done|].
  apply triple_noexcept, virtual_move_spec; set_solver.
Qed.

Lemma copy_assign_inv D this rhs :
  this ∈ D → rhs ∈ D →
  triple (inv ∅ D) (copy_assign this rhs) (λ _, inv ∅ D) (λ _, inv ∅ D).
Proof.
  intros Hthis Hrhs. unfold copy_assign.
  case_decide as Hne; [by intros σ H|].
  apply triple_with_local. intros b Hb.
  (* this is moved to the backup, *)
  eapply (triple_bind _ _ _ (λ _, inv ∅ ({[b]} ∪ D)));
    [apply virtual_move_spec; set_solver|intros _].
  (* what is left of it destroyed, *)
  eapply (triple_bind _ _ _ (λ _, inv {[this]} ({[b]} ∪ D)));
    [apply virtual_destroy_spec; set_solver|intros _].
  (* the copy made in its place, or the backup moved back, *)
  eapply (triple_bind _ _ _ (λ _, inv ∅ ({[b]} ∪ D))).
  - eapply triple_try_catch; [apply virtual_copy_spec; set_solver|].
    intros e; cbn.
    eapply (triple_bind _ _ _ (λ _, inv ∅ ({[b]} ∪ D)));
      [apply virtual_move_spec; set_solver|intros _].
    eapply (triple_bind _ _ _ (λ _, inv {[b]} ({[b]} ∪ D)));
      [apply virtual_destroy_spec; set_solver|intros _].
    by intros σ H.
  - (* and the backup destroyed. *)
    intros _. apply virtual_destroy_spec; set_solver.
Qed.

Lemma move_assign_inv D this rhs :
  this ∈ D → rhs ∈ D →
  triple (inv ∅ D) (move_assign this rhs) (λ _, inv ∅ D) (λ _, inv ∅ D).
Proof.
  intros Hthis Hrhs. unfold move_assign. apply triple_noexcept.
  case_decide as Hne; [by intros σ H|].
  eapply (triple_bind _ _ _ (λ _, inv {[this]} D));
    [apply virtual_destroy_spec; set_solver|intros _].
  apply virtual_move_spec; set_solver.
Qed.

Lemma function_destructor_inv D this :
  this ∈ D →
  triple (inv ∅ D) (function_destructor this)
    (λ _, inv ∅ (D ∖ {[this]})) (λ _, inv ∅ D).
Proof.
  intros Hthis. unfold function_destructor.
  eapply (triple_bind _ _ _ (λ _, inv {[this]} D));
    [apply virtual_destroy_spec; set_solver|intros _].
  intros σ [Hwf Hdom]. split.
  - apply (wf_except_weaken ({[this]} ∖ {[this]})); [|set_solver].
    by eapply wf_except_delete.
  - cbn. by rewrite dom_delete_L, Hdom.
Qed.

(** A call through a non-const pointer changes the value of the held
    object and not its type. *)
Lemma wf_storage_update h a T v v' s :
  h !! a = Some (T, v) → wf_storage h s → wf_storage (<[a:=(T, v')]> h) s.
Proof.
  intros Ha [c Hc]. apply content_of_shape in Hc.
  destruct Hc as [b|T0 v0 Hfit|T0 a0 v0 Hfit Ha0].
  - by exists nothing.
  - exists (object T0 v0). apply content_of_shape. by constructor.
  - destruct (decide (a0 = a)) as [->|Hne].
    + assert (T0 = T) as -> by congruence.
      exists (object T v'). apply content_of_shape. constructor; [done|].
      apply lookup_insert_eq.
    + exists (object T0 v0). apply content_of_shape. constructor; [done|].
      by rewrite lookup_insert_ne.
Qed.

Lemma wf_except_heap_update X a T v v' σ σ' :
  wf_except X σ →
  heap σ !! a = Some (T, v) →
  objs σ' = objs σ → heap σ' = <[a:=(T, v')]> (heap σ) →
  wf_except X σ'.
Proof.
  intros [H1 H2] Ha Ho Hh. split.
  - intros l s. rewrite Ho, Hh. intros Hl Hn.
    eapply wf_storage_update; [done|]. by eapply H1.
  - intros l1 l2 s1 s2 a'. rewrite Ho. apply H2.
Qed.

Lemma operator_call_inv X D this args :
  this ∈ D → this ∉ X →
  triple (inv X D) (operator_call this args) (λ _, inv X D) (λ _, inv X D).
Proof.
  intros Hthis Hn σ Hinv.
  destruct (inv_lookup _ _ _ _ Hinv Hthis) as [s Hs].
  destruct Hinv as [Hwf Hdom].
  destruct (wf_except_shape X σ this s Hwf Hs Hn) as [c Hc].
  destruct Hc as [b|T v Hfit|T a v Hfit Ha]; exec.
  - done.
  - by destruct (call (types E T) v args).
  - assert (inv X D {| objs := objs σ;
                       heap := <[a:=(T, (call_lvalue (types E T) v args).1)]> (heap σ);
                       trace := trace σ |}) as H
      by (split; [by eapply wf_except_heap_update|done]).
    by destruct (call_lvalue (types E T) v args).2.
Qed.

(** Every operation, from a well-formed state, ends in one. *)
Lemma run_wf o σ :
  wf_state σ → applicable o σ →
  match run o σ with
  | Ret _ σ' | Throw _ σ' => wf_state σ'
  | Fault _ => False
  end.
Proof.
  intros Hwf%wf_state_except Happ.
  assert (inv ∅ (dom (objs σ)) σ) as Hinv by done.
  assert (∀ (m : cpp unit) D',
    triple (inv ∅ (dom (objs σ))) m (λ _, inv ∅ D') (λ _, inv ∅ (dom (objs σ))) →
    match m σ with
    | Ret _ σ' | Throw _ σ' => wf_state σ'
    | Fault _ => False
    end) as Hrun.
  { intros m D' Hm. specialize (Hm σ Hinv).
    destruct (m σ) as [a σ'|e σ'|k]; [| |done];
      apply wf_state_except; by destruct Hm. }
  destruct o as [this|T this v|this other|this other|this rhs|this rhs|this
                 |this args];
    cbn in Happ |- *.
  8: { apply elem_of_dom in Happ. eapply Hrun.
       eapply (triple_bind _ _ _ (λ _, inv ∅ (dom (objs σ))));
         [apply operator_call_inv; [done|set_solver]|].
       intros _ σ' H. exact H. }
  - eapply Hrun, function_default_inv.
  - eapply Hrun, function_from_inv. by apply not_elem_of_dom.
  - destruct Happ as [Hthis Hother%elem_of_dom].
    eapply Hrun, function_copy_inv; [by apply not_elem_of_dom|done].
  - destruct Happ as [Hthis Hother%elem_of_dom].
    eapply Hrun, function_move_inv; [by apply not_elem_of_dom|done].
  - destruct Happ as [Hthis%elem_of_dom Hrhs%elem_of_dom].
    by eapply Hrun, copy_assign_inv.
  - destruct Happ as [Hthis%elem_of_dom Hrhs%elem_of_dom].
    by eapply Hrun, move_assign_inv.
  - apply elem_of_dom in Happ. by eapply Hrun, function_destructor_inv.
Qed.

Lemma reachable_wf σ : reachable σ → wf_state σ.
Proof.
  induction 1 as [|o σ σ' _ IH Happ Hrun|o σ e σ' _ IH Happ Hrun].
  - split; cbn; apply map_Forall_empty.
  - pose proof (run_wf o σ IH Happ) as H. by rewrite Hrun in H.
  - pose proof (run_wf o σ IH Happ) as H. by rewrite Hrun in H.
Qed.

Lemma reachable_step o σ :
  reachable σ → applicable o σ →
  match run o σ with
  | Ret _ σ' | Throw _ σ' => reachable σ'
  | Fault _ => False
  end.
Proof.
  intros Hreach Happ.
  pose proof (run_wf o σ (reachable_wf σ Hreach) Happ) as H.
  destruct (run o σ) as [[] σ'|e σ'|k] eqn:Hrun; [|by eauto using reachable|done].
  by eapply reachable_return.
Qed.

(** ** Claims about single operations *)

(** C3. Invoking a container whose emptiness test holds, and in
    particular a default-constructed one, with any arguments, throws
    [bad_function_call]: it neither returns nor faults, and the
    exception carries the fixed message "bad function call". *)
Theorem empty_invocation_throws (σ : state) (c : loc) (args : Args) :
  (operator_bool c σ = Ret false σ →
     operator_call c args σ = Throw bad_function_call σ)
  ∧ (∃ σ', function_default c σ = Ret () σ'
           ∧ operator_bool c σ' = Ret false σ'
           ∧ operator_call c args σ' = Throw bad_function_call σ')
  ∧ what bad_function_call = Some "bad function call"%string.
Proof.
  split; [|split; [|done]].
  - intros (_ & s & d & Hc & Hd & Hb)%operator_bool_inv.
    symmetry in Hb. apply bool_decide_eq_false in Hb.
    destruct (decide (d = empty_type_descriptor)) as [->|]; [|done].
    by rewrite (operator_call_spec c s _ args σ Hc Hd).
  - eexists. split; [apply function_default_spec|].
    split.
    + erewrite operator_bool_spec; [| apply lookup_insert_eq | reflexivity]. done.
    + erewrite operator_call_spec; [| apply lookup_insert_eq | reflexivity]. done.
Qed.

(** C8. Self-assignment, by copy or by move, returns at once with the
    whole state unchanged: the container, every other object, the heap,
    and the record of operations on held values, so that nothing was
    copied, moved or destroyed. *)
Theorem self_assignment_noop (σ : state) (c : loc) :
  copy_assign c c σ = Ret () σ ∧ move_assign c c σ = Ret () σ.
Proof.
  unfold copy_assign, move_assign, noexcept.
  by rewrite !decide_True.
Qed.

(** C4. A type is stored in the buffer exactly when its size and its
    alignment do not exceed those of a pointer and its move constructor
    is declared non-throwing.  Constructing a container from such a
    value always succeeds, places the object in the buffer and leaves
    the heap and the allocator alone.  For any other type the container
    allocates one block holding the object and stores its address in the
    buffer; the construction fails only if the allocation or the move
    of the value does, and then nothing stays allocated. *)
Theorem inline_iff_fits (T : type_id) (this : loc) (v : val) (σ : state) :
  (fits_small_storage T = true ↔
     (sizeof (types E T) ≤ INPLACE_BUFFER_SIZE)%N
     ∧ (alignof (types E T) ≤ INPLACE_BUFFER_ALIGNMENT)%N
     ∧ is_nothrow_move_constructible (types E T) = true)
  ∧ INPLACE_BUFFER_SIZE = sizeof_voidp E
  ∧ INPLACE_BUFFER_ALIGNMENT = alignof_voidp E
  ∧ if fits_small_storage T then
      ∃ σ' x,
        function_from T this v σ = Ret () σ'
        ∧ objs σ' !! this = Some {| buf := inplace T x;
                                    desc := Some (get_type_descriptor T) |}
        ∧ heap σ' = heap σ
        ∧ trace σ' = trace σ ++ [ev_move T]
    else
      observe (function_from T this v σ)
      = (if decide (size (heap σ) < heap_capacity E) then
           match move_result T v with
           | inr _ => returns ()
           | inl e => throws e
           end
         else throws std_bad_alloc)
      ∧ match function_from T this v σ with
        | Ret _ σ' =>
            ∃ a x,
              objs σ' !! this = Some {| buf := address a;
                                        desc := Some (get_type_descriptor T) |}
              ∧ heap σ !! a = None
              ∧ heap σ' = <[a:=(T, x)]> (heap σ)
              ∧ trace σ' = trace σ ++ [ev_alloc a; ev_move T]
        | Throw e σ' => objs σ' !! this = None ∧ heap σ' = heap σ
        | Fault _ => False
        end.
Proof.
  split; [|split; [done|split; [done|]]].
  - unfold fits_small_storage.
    rewrite !andb_true_iff, !N.leb_le. tauto.
  - destruct (fits_small_storage T) eqn:Hfit.
    + destruct (fits_nothrow T v Hfit) as [r Hr].
      eexists _, _. split; [by apply function_from_small|].
      cbn. by rewrite lookup_insert_eq.
    + rewrite function_from_dynamic by done.
      case_decide; [|by cbn; rewrite lookup_delete_eq].
      destruct (move_result T v) as [e|r]; cbn.
      * by rewrite lookup_delete_eq.
      * split; [done|]. eexists _, _.
        rewrite lookup_insert_eq. split; [done|].
        split; [apply fresh_block|done].
Qed.

(** C5. Moving out of a storage that holds a heap object copies the
    stored address into the destination, hands the table pointer over
    and points the source at the empty table.  Nothing is allocated,
    freed, copied or moved; the destination now holds the object, the
    source tests empty, and destroying the source through its table
    changes nothing, so the block is freed once only. *)
Theorem owned_move_resets_source (T : type_id) (v : val) (dst src : loc)
    (s sd : storage) (σ : state) :
  fits_small_storage T = false →
  objs σ !! src = Some s →
  content_of (heap σ) s = Some (object T v) →
  objs σ !! dst = Some sd →
  dst ≠ src →
  ∃ a σ',
    buf s = address a
    ∧ move (deref (get_type_descriptor T)) dst src σ = Ret () σ'
    ∧ objs σ' !! dst = Some {| buf := address a; desc := Some (get_type_descriptor T) |}
    ∧ objs σ' !! src = Some {| buf := address a; desc := Some empty_type_descriptor |}
    ∧ heap σ' = heap σ
    ∧ trace σ' = trace σ
    ∧ (∀ l, l ≠ dst → l ≠ src → objs σ' !! l = objs σ !! l)
    ∧ operator_bool src σ' = Ret false σ'
    ∧ (let* d := read_desc src in destroy (deref d) src) σ' = Ret () σ'.
Proof.
  intros Hfit Hs Hc Hd Hne.
  apply content_of_shape in Hc.
  inversion Hc as [|? ? Hfit'|? a ? _ Ha]; subst; [congruence|].
  eexists a, _. split; [done|].
  split; [cbn; rewrite Hfit; by eapply move_dynamic|].
  cbn. rewrite lookup_insert_eq, lookup_insert_ne, lookup_insert_eq by done.
  repeat (split; [done|]).
  split; [by intros; rewrite !lookup_insert_ne|].
  split; by exec.
Qed.


(** C7, as the code has it.  Copy-constructing [d] from a container
    [c] succeeds unless the copy of the held value fails; [d] then
    holds what the copy constructor of the held type made, and the
    source answers as before.  When that copy constructor preserves the
    value, invoking [d] with any arguments gives the caller what
    invoking [c] gives: the same return value or the same exception. *)
Theorem copy_then_invoke (c d : loc) (s : storage) (ct : content)
    (args : Args) (σ : state) :
  objs σ !! c = Some s →
  content_of (heap σ) s = Some ct →
  d ≠ c →
  observe (function_copy d c σ) = copy_outcome (heap σ) ct
  ∧ match function_copy d c σ with
    | Ret _ σ' =>
        (∃ s' ct', objs σ' !! d = Some s'
                   ∧ content_of (heap σ') s' = Some ct'
                   ∧ copy_of ct ct')
        ∧ observe (operator_call c args σ') = observe (operator_call c args σ)
        ∧ ((∀ T v, ct = object T v → CopyConstructible T) →
           observe (operator_call d args σ') = observe (operator_call c args σ))
    | Throw _ σ' =>
        observe (operator_call c args σ') = observe (operator_call c args σ)
    | Fault _ => False
    end.
Proof.
  intros Hc Hct Hdc. apply content_of_shape in Hct.
  destruct Hct as [b|T v Hfit|T a v Hfit Ha]; cbn.
  - rewrite (function_copy_empty d c b σ Hc Hdc). cbn.
    split; [done|]. rewrite lookup_insert_eq.
    split; [by eexists _, nothing|]. split; [by exec|]. intros _. by exec.
  - rewrite (function_copy_small T d c v σ Hfit Hc Hdc), Hfit. cbn.
    destruct (copy_construct (types E T) v) as [e|v'] eqn:Hv; cbn.
    + split; [done|]. exec. apply T_call_observe.
    + split; [done|]. rewrite lookup_insert_eq.
      split; [|split].
      * eexists _, (object T v'). split; [done|].
        split; [|done]. apply content_of_shape. by constructor.
      * exec. apply T_call_observe.
      * intros Hcopy. rewrite (Hcopy T v eq_refl v v' Hv).
        exec. apply T_call_observe.
  - rewrite (function_copy_dynamic T d c a v σ Hfit Hc Ha Hdc), Hfit. cbn.
    pose proof (fresh_block σ) as Hfresh.
    assert (fresh (dom (heap σ)) ≠ a) by congruence.
    case_decide.
    + rewrite bool_decide_eq_true_2 by done.
      destruct (copy_construct (types E T) v) as [e|v'] eqn:Hv; cbn.
      * split; [done|]. exec.
        by destruct (call_lvalue (types E T) v args).2.
      * split; [done|]. rewrite lookup_insert_eq.
        split; [|split].
        -- eexists _, (object T v'). split; [done|].
           split; [|done]. apply content_of_shape. constructor; [done|].
           apply lookup_insert_eq.
        -- exec. by destruct (call_lvalue (types E T) v args).2.
        -- intros Hcopy. rewrite (Hcopy T v eq_refl v v' Hv).
           exec. by destruct (call_lvalue (types E T) v args).2.
    + rewrite bool_decide_eq_false_2 by done. cbn.
      split; [done|]. exec. by destruct (call_lvalue (types E T) v args).2.
Qed.

(** C10. A copy-constructed container has the table pointer of its
    source, whether the source is empty, holds an in-place object or a
    heap object.  Its emptiness test therefore answers as the source's,
    and for every type [T] its typed probe is null exactly when the
    source's is; when both are non-null and [T] copies faithfully they
    point to equal values.  The source is untouched, and copying an
    empty container always succeeds and yields an empty one. *)
Theorem copy_keeps_descriptor (c d : loc) (s : storage) (ct : content)
    (σ : state) :
  objs σ !! c = Some s →
  content_of (heap σ) s = Some ct →
  d ≠ c →
  observe (function_copy d c σ) = copy_outcome (heap σ) ct
  ∧ match function_copy d c σ with
    | Ret _ σ' =>
        (∃ s', objs σ' !! d = Some s' ∧ desc s' = desc s)
        ∧ objs σ' !! c = Some s
        ∧ observe (operator_bool d σ') = observe (operator_bool c σ)
        ∧ (∀ T, ∃ p q,
             target T d σ' = Ret p σ' ∧ target T c σ = Ret q σ
             ∧ (p = nullptr ↔ q = nullptr)
             ∧ (CopyConstructible T → pointee T p σ' = pointee T q σ))
        ∧ (ct = nothing → operator_bool d σ' = Ret false σ')
    | Throw _ _ => ct ≠ nothing
    | Fault _ => False
    end.
Proof.
  intros Hc Hct Hdc. apply content_of_shape in Hct.
  destruct Hct as [b|T v Hfit|T a v Hfit Ha]; cbn.
  - rewrite (function_copy_empty d c b σ Hc Hdc). cbn.
    split; [done|]. rewrite lookup_insert_eq, lookup_insert_ne by done.
    split; [by eexists|]. split; [done|]. split; [by exec|].
    split; [|by intros; exec].
    intros T. exists nullptr, nullptr. by exec.
  - rewrite (function_copy_small T d c v σ Hfit Hc Hdc), Hfit. cbn.
    destruct (copy_construct (types E T) v) as [e|v'] eqn:Hv; cbn; [done|].
    split; [done|]. rewrite lookup_insert_eq, lookup_insert_ne by done.
    split; [by eexists|]. split; [done|]. split; [by exec|].
    split; [|done].
    intros U. destruct (decide (U = T)) as [->|HU].
    + exists (to_buffer d), (to_buffer c). exec.
      repeat (split; [done|]). intros HT. by rewrite (HT v v' Hv).
    + exists nullptr, nullptr. by exec.
  - rewrite (function_copy_dynamic T d c a v σ Hfit Hc Ha Hdc), Hfit. cbn.
    case_decide.
    + rewrite bool_decide_eq_true_2 by done.
      destruct (copy_construct (types E T) v) as [e|v'] eqn:Hv; cbn; [done|].
      split; [done|]. rewrite lookup_insert_eq, lookup_insert_ne by done.
      split; [by eexists|]. split; [done|]. split; [by exec|].
      split; [|done].
      intros U. destruct (decide (U = T)) as [->|HU].
      * exists (to_heap (fresh (dom (heap σ)))), (to_heap a). exec.
        repeat (split; [done|]). intros HT. by rewrite (HT v v' Hv).
      * exists nullptr, nullptr. by exec.
    + by rewrite bool_decide_eq_false_2 by done.
Qed.

(** C6, as the code has it.  A container constructed from a value [v]
    of type [T] answers the typed probe for [T] with a non-null pointer
    to the held object, which is the object the move constructor of [T]
    made from [v] and so equal to [v] whenever that constructor
    preserves the value; it answers the probe for any other type with
    null, and an empty container answers every probe with null.  The
    answer is decided by comparing the container's table pointer with
    the table of the type asked for, and by nothing else. *)
Theorem target_round_trip (T : type_id) (v : val) (this : loc) (σ : state) :
  match function_from T this v σ with
  | Ret _ σ' =>
      (∃ p r, target T this σ' = Ret p σ'
              ∧ p ≠ nullptr
              ∧ move_result T v = inr r
              ∧ pointee T p σ' = Some r.1
              ∧ (MoveConstructible T → pointee T p σ' = Some v))
      ∧ (∀ U, U ≠ T → target U this σ' = Ret nullptr σ')
  | Throw _ _ => fits_small_storage T = false
  | Fault _ => False
  end
  ∧ (∀ c U, operator_bool c σ = Ret false σ → target U c σ = Ret nullptr σ)
  ∧ (∀ c s d U, objs σ !! c = Some s → desc s = Some d →
       target U c σ = if decide (d = get_type_descriptor U) then as_target U c σ
                      else Ret nullptr σ).
Proof.
  split; [|split].
  - destruct (fits_small_storage T) eqn:Hfit.
    + destruct (fits_nothrow T v Hfit) as [r Hr].
      rewrite (function_from_small T this v r σ Hfit Hr). split.
      * exists (to_buffer this), r. exec.
        repeat (split; [done|]). intros Hmv. by rewrite (Hmv v r Hr).
      * intros U HU. by exec.
    + rewrite (function_from_dynamic T this v σ Hfit).
      case_decide; [|done]. cbn.
      destruct (move_result T v) as [e|r] eqn:Hr; [done|]. split.
      * exists (to_heap (fresh (dom (heap σ)))), r. exec.
        repeat (split; [done|]). intros Hmv. by rewrite (Hmv v r Hr).
      * intros U HU. by exec.
  - intros c U (_ & s & d & Hc & Hd & Hb)%operator_bool_inv.
    symmetry in Hb. apply bool_decide_eq_false in Hb.
    destruct (decide (d = empty_type_descriptor)) as [->|]; [|done].
    by exec.
  - intros c s d U. apply target_spec.
Qed.

(** C1, as the code has it.  Copy assignment fails exactly when
    copying the value held by the right-hand side fails, and with that
    same exception.  When it fails the heap and every object other than
    the target are as before the call; the target has its table, so it
    answers the emptiness test and every typed probe as before, and it
    holds the value it held, except that a value kept in the buffer has
    been moved to the backup and back and so has gone through its move
    constructor twice.  An empty target, a target whose value is on the
    heap, and a target whose buffered value has a move constructor that
    preserves the value, are therefore exactly as before the call, and
    answer every invocation as before.  When the assignment succeeds
    the target has the table of the right-hand side and holds a copy of
    its value, in a block of its own if on the heap, and the right-hand
    side is unchanged. *)
Theorem copy_assign_strong_guarantee (this rhs : loc) (s r : storage)
    (ct cr : content) (σ : state) :
  wf_state σ →
  objs σ !! this = Some s →
  objs σ !! rhs = Some r →
  content_of (heap σ) s = Some ct →
  content_of (heap σ) r = Some cr →
  this ≠ rhs →
  observe (copy_assign this rhs σ) = copy_outcome (heap σ) cr
  ∧ match copy_assign this rhs σ with
    | Throw e σ' =>
        copy_outcome (heap σ) cr = throws e
        ∧ heap σ' = heap σ
        ∧ objs σ' = <[this:=restored s]> (objs σ)
        ∧ desc (restored s) = desc s
        ∧ content_of (heap σ') (restored s) = Some (twice_moved ct)
        ∧ observe (operator_bool this σ') = observe (operator_bool this σ)
        ∧ (∀ T, observe (target T this σ') = observe (target T this σ))
        ∧ ((∀ T v, ct = object T v → fits_small_storage T = true →
                   MoveConstructible T) →
           objs σ' !! this = Some s
           ∧ content_of (heap σ') s = Some ct
           ∧ objs σ' = objs σ
           ∧ (∀ args, observe (operator_call this args σ')
                      = observe (operator_call this args σ)))
    | Ret _ σ' =>
        ∃ s' c',
          objs σ' = <[this:=s']> (objs σ)
          ∧ desc s' = desc r
          ∧ content_of (heap σ') s' = Some c'
          ∧ copy_of cr c'
          ∧ content_of (heap σ') r = Some cr
          ∧ (∀ a, owned s' = Some a → heap σ !! a = None)
    | Fault _ => False
    end.
Proof.
  intros Hwf Hs Hr Hct Hcr Hne.
  destruct (copy_assign_outcome this rhs s r ct cr σ) as [Hobs Hpost]; try done.
  split; [done|].
  destruct (copy_assign this rhs σ) as [[] σ'|e σ'|k]; [done| |done].
  destruct Hpost as [Ho Hh].
  split; [by rewrite <-Hobs|].
  split; [done|]. split; [done|].
  split; [apply restored_desc|].
  split; [rewrite Hh; by apply content_of_shape, restored_shape, content_of_shape|].
  split; [by eapply operator_bool_restored|].
  split; [intros; by eapply target_restored|].
  intros Hmv.
  apply content_of_shape in Hct.
  rewrite (restored_id _ _ _ Hct Hmv), insert_id in Ho by done.
  apply content_of_shape in Hct.
  split; [by rewrite Ho|].
  split; [by rewrite Hh|].
  split; [done|].
  intros; by apply operator_call_frame.
Qed.

(** C9. In every state a program can reach by constructing (by
    default, from a callable, by copy, by move), assigning (by copy, by
    move), invoking and destroying containers, whether the operations
    return or throw, every container's table pointer is set and points to a table:
    the empty table exactly when the container tests empty.  The state
    is well-formed, so the table's [destroy], and its [move] to any
    other storage, can be called on every container and return; and no
    further operation can go wrong from there. *)
Theorem table_pointer_never_null (σ : state) :
  reachable σ →
  wf_state σ
  ∧ (∀ c s, objs σ !! c = Some s →
       (∃ d, desc s = Some d
             ∧ operator_bool c σ = Ret (bool_decide (d ≠ empty_type_descriptor)) σ)
       ∧ (∃ σ', (let* d := read_desc c in destroy (deref d) c) σ = Ret () σ')
       ∧ (∀ dst, dst ≠ c → is_Some (objs σ !! dst) →
            ∃ σ', (let* d := read_desc c in move (deref d) dst c) σ = Ret () σ'))
  ∧ (∀ o, applicable o σ →
       match run o σ with
       | Ret _ σ' | Throw _ σ' => reachable σ'
       | Fault _ => False
       end)
  ∧ (∀ c, ∃ σ',
       function_default c σ = Ret () σ'
       ∧ objs σ' !! c = Some {| buf := raw; desc := Some empty_type_descriptor |}).
Proof.
  intros Hreach. pose proof (reachable_wf σ Hreach) as Hwf.
  split; [done|]. split; [|split].
  - intros c s Hc.
    assert (inv ∅ (dom (objs σ)) σ) as Hinv
      by (split; [by apply wf_state_except|done]).
    assert (c ∈ dom (objs σ)) as Hin by (apply elem_of_dom; eauto).
    split; [|split].
    + destruct (wf_state_shape σ c s Hwf Hc) as [ct Hsh].
      destruct Hsh; eexists; (split; [reflexivity|]); by exec.
    + pose proof (virtual_destroy_spec ∅ {[c]} (dom (objs σ)) c (λ _ _, False)
                    Hin (not_elem_of_empty c) ltac:(set_solver) σ Hinv) as H.
      destruct (bind _ _ σ) as [[] σ'|e σ'|k]; [by eexists|done|done].
    + intros dst Hne Hdst%elem_of_dom.
      pose proof (virtual_move_spec ∅ ∅ (dom (objs σ)) dst c (λ _ _, False)
                    Hin (not_elem_of_empty c) Hdst Hne ltac:(set_solver) σ Hinv)
        as H.
      destruct (bind _ _ σ) as [[] σ'|e σ'|k]; [by eexists|done|done].
  - intros o Happ. by apply reachable_step.
  - intros c. eexists. split; [apply function_default_spec|].
    cbn. apply lookup_insert_eq.
Qed.

(** ** Further properties of the members *)

(** X1. Destroying a container runs the destructor of the held object
    once and, when the object lives on the heap, frees its block; an
    empty container is destroyed without any effect on held objects or
    on the heap.  Afterwards no object exists at the container's
    address, and every other object is untouched. *)
Theorem destructor_releases (c : loc) (s : storage) (ct : content) (σ : state) :
  objs σ !! c = Some s →
  content_of (heap σ) s = Some ct →
  ∃ σ',
    function_destructor c σ = Ret () σ'
    ∧ objs σ' = delete c (objs σ)
    ∧ match ct with
      | nothing => heap σ' = heap σ ∧ trace σ' = trace σ
      | object T v =>
          if fits_small_storage T then
            heap σ' = heap σ ∧ trace σ' = trace σ ++ [ev_destroy T]
          else
            ∃ a, buf s = address a
                 ∧ heap σ' = delete a (heap σ)
                 ∧ trace σ' = trace σ ++ [ev_destroy T; ev_free a]
      end.
Proof.
  intros Hc Hct. apply content_of_shape in Hct.
  destruct Hct as [b|T v Hfit|T a v Hfit Ha].
  - eexists. split; [by exec|]. by cbn.
  - eexists. split; [by exec|]. cbn. rewrite Hfit.
    split; [by rewrite ?delete_insert_eq|done].
  - eexists. split; [by exec|]. cbn. rewrite Hfit.
    split; [done|]. exists a. by rewrite <-(assoc_L (++)).
Qed.

(** X2. The call operator forwards: on a container holding a callable
    it returns what the call returns and throws what the call throws,
    unchanged; on an empty container it throws [bad_function_call].  An
    empty container and a value in the buffer, which is called through
    a const reference, leave the state as it was.  A value on the heap
    is called through a non-const pointer: the held object becomes what
    the call left of it, and nothing else changes. *)
Theorem invocation_forwards (c : loc) (s : storage) (ct : content)
    (args : Args) (σ : state) :
  objs σ !! c = Some s →
  content_of (heap σ) s = Some ct →
  operator_call c args σ
  = match ct with
    | nothing => Throw bad_function_call σ
    | object T v =>
        if fits_small_storage T then
          match call (types E T) v args with
          | inl e => Throw e σ
          | inr r => Ret r σ
          end
        else
          match buf s with
          | address a =>
              let r := call_lvalue (types E T) v args in
              let σ' := set_heap <[a:=(T, r.1)]> σ in
              match r.2 with
              | inl e => Throw e σ'
              | inr x => Ret x σ'
              end
          | _ => Fault undefined_behaviour
          end
    end.
Proof.
  intros Hc Hct. apply content_of_shape in Hct.
  destruct Hct as [b|T v Hfit|T a v Hfit Ha]; exec.
  - done.
  - by destruct (call (types E T) v args).
  - by destruct (call_lvalue (types E T) v args).2.
Qed.

(** X3. On any well-formed container the typed probe for [U] changes
    nothing and is non-null exactly when the container holds an object
    of type [U]; the pointer then leads to the held value, inside the
    container's buffer for a small type and in its heap block
    otherwise. *)
Theorem target_characterisation (c : loc) (s : storage) (ct : content)
    (U : type_id) (σ : state) :
  objs σ !! c = Some s →
  content_of (heap σ) s = Some ct →
  ∃ p,
    target U c σ = Ret p σ
    ∧ match ct with
      | nothing => p = nullptr
      | object T v =>
          if decide (T = U) then
            pointee U p σ = Some v
            ∧ p = (if fits_small_storage T then to_buffer c
                   else match buf s with address a => to_heap a | _ => nullptr end)
          else p = nullptr
      end.
Proof.
  intros Hc Hct. apply content_of_shape in Hct.
  destruct Hct as [b|T v Hfit|T a v Hfit Ha].
  - exists nullptr. by exec.
  - destruct (decide (T = U)) as [<-|Hne].
    + exists (to_buffer c). by exec.
    + exists nullptr. by exec.
  - destruct (decide (T = U)) as [<-|Hne].
    + exists (to_heap a). by exec.
    + exists nullptr. by exec.
Qed.

(** X4. Copy construction is all or nothing.  If it throws, no object
    exists at the destination, every other object and the heap are as
    before (a block allocated for the copy has been given back), and
    the exception is the one the copy of the held value failed with.
    If it returns, the only new object is the destination, it holds a
    copy of the source's value, and the heap has grown by exactly the
    destination's block, if it has one. *)
Theorem copy_construction_all_or_nothing (c d : loc) (s : storage)
    (ct : content) (σ : state) :
  objs σ !! c = Some s →
  content_of (heap σ) s = Some ct →
  objs σ !! d = None →
  match function_copy d c σ with
  | Ret _ σ' =>
      ∃ s' ct',
        objs σ' = <[d:=s']> (objs σ)
        ∧ content_of (heap σ') s' = Some ct'
        ∧ copy_of ct ct'
        ∧ match owned s' with
          | None => heap σ' = heap σ
          | Some a => heap σ !! a = None ∧ ∃ x, heap σ' = <[a:=x]> (heap σ)
          end
  | Throw e σ' =>
      objs σ' = objs σ ∧ heap σ' = heap σ
      ∧ copy_outcome (heap σ) ct = throws e
  | Fault _ => False
  end.
Proof.
  intros Hc Hct Hd.
  assert (d ≠ c) as Hdc by congruence.
  assert (delete d (objs σ) = objs σ) as Hfree by by apply delete_id.
  apply content_of_shape in Hct.
  destruct Hct as [b|T v Hfit|T a v Hfit Ha]; cbn.
  - rewrite (function_copy_empty d c b σ Hc Hdc). cbn.
    by eexists _, nothing.
  - rewrite (function_copy_small T d c v σ Hfit Hc Hdc), Hfit. cbn.
    destruct (copy_construct (types E T) v) as [e|v'] eqn:Hv; cbn; [done|].
    eexists _, (object T v'). split; [done|].
    unfold content_of, owned; cbn. rewrite Hfit, decide_True by done. done.
  - rewrite (function_copy_dynamic T d c a v σ Hfit Hc Ha Hdc), Hfit. cbn.
    case_decide.
    + rewrite bool_decide_eq_true_2 by done.
      destruct (copy_construct (types E T) v) as [e|v'] eqn:Hv; cbn; [done|].
      eexists _, (object T v'). split; [done|].
      unfold content_of, owned; cbn.
      rewrite Hfit, lookup_insert_eq, decide_True by done.
      repeat (split; [done|]). split; [apply fresh_block|by eexists].
    + by rewrite bool_decide_eq_false_2 by done.
Qed.

(** X5. A copy is independent of its source: destroying the copy gives
    back exactly the objects and the heap there were before the copy
    was made, so the source holds what it held. *)
Theorem copy_then_destroy_restores (c d : loc) (s : storage) (ct : content)
    (σ : state) :
  objs σ !! c = Some s →
  content_of (heap σ) s = Some ct →
  objs σ !! d = None →
  match function_copy d c σ with
  | Ret _ σ1 =>
      ∃ σ2, function_destructor d σ1 = Ret () σ2
            ∧ objs σ2 = objs σ ∧ heap σ2 = heap σ
  | Throw _ _ => copy_outcome (heap σ) ct ≠ returns ()
  | Fault _ => False
  end.
Proof.
  intros Hc Hct Hd.
  assert (d ≠ c) as Hdc by congruence.
  assert (delete d (objs σ) = objs σ) as Hfree by by apply delete_id.
  apply content_of_shape in Hct.
  destruct Hct as [b|T v Hfit|T a v Hfit Ha]; cbn.
  - rewrite (function_copy_empty d c b σ Hc Hdc).
    eexists. split; [by exec|]. by cbn.
  - rewrite (function_copy_small T d c v σ Hfit Hc Hdc), Hfit. cbn.
    destruct (copy_construct (types E T) v) as [e|v'] eqn:Hv; cbn; [done|].
    eexists. split; [by exec|]. by cbn.
  - rewrite (function_copy_dynamic T d c a v σ Hfit Hc Ha Hdc), Hfit. cbn.
    case_decide.
    + rewrite bool_decide_eq_true_2 by done.
      destruct (copy_construct (types E T) v) as [e|v'] eqn:Hv; cbn; [done|].
      eexists. split; [by exec|]. cbn.
      split; [done|]. rewrite ?delete_insert_eq. apply delete_id, fresh_block.
    + by rewrite bool_decide_eq_false_2 by done.
Qed.

(** X6. A container constructed from a callable is not empty, and
    invoking it calls that callable: it returns what the callable
    returns and throws what it throws.  A callable kept in the buffer
    is called as a const object and the state stays as it was; one kept
    on the heap is called as a non-const object, and only that object
    changes.  Construction fails only for a type that needs the
    heap. *)
Theorem construct_then_invoke (T : type_id) (v : val) (this : loc)
    (args : Args) (σ : state) :
  MoveConstructible T →
  match function_from T this v σ with
  | Ret _ σ' =>
      operator_bool this σ' = Ret true σ'
      ∧ if fits_small_storage T then
          operator_call this args σ'
          = match call (types E T) v args with
            | inl e => Throw e σ'
            | inr r => Ret r σ'
            end
        else
          ∃ a, objs σ' !! this
               = Some {| buf := address a; desc := Some (get_type_descriptor T) |}
               ∧ operator_call this args σ'
                 = let r := call_lvalue (types E T) v args in
                   let σ'' := set_heap <[a:=(T, r.1)]> σ' in
                   match r.2 with
                   | inl e => Throw e σ''
                   | inr x => Ret x σ''
                   end
  | Throw _ _ => fits_small_storage T = false
  | Fault _ => False
  end.
Proof.
  intros Hmv. destruct (fits_small_storage T) eqn:Hfit.
  - destruct (fits_nothrow T v Hfit) as [r Hr].
    rewrite (function_from_small T this v r σ Hfit Hr), (Hmv v r Hr).
    split; exec; [done|]. by destruct (call (types E T) v args).
  - rewrite (function_from_dynamic T this v σ Hfit).
    case_decide; [|done]. cbn.
    destruct (move_result T v) as [e|r] eqn:Hr; [done|].
    rewrite (Hmv v r Hr).
    split; [by exec|]. eexists. split; [cbn; apply lookup_insert_eq|].
    exec. by destruct (call_lvalue (types E T) v args).2.
Qed.

(** X7. Move construction from a container whose value lives on the
    heap does not touch the value: no constructor or destructor of the
    held type runs, nothing is allocated or freed, and the typed probe
    of the destination returns the very pointer the source's probe
    returned, still leading to the same value. *)
Theorem heap_move_keeps_address (T : type_id) (v : val) (c d : loc)
    (s : storage) (σ : state) :
  fits_small_storage T = false →
  objs σ !! c = Some s →
  content_of (heap σ) s = Some (object T v) →
  d ≠ c →
  ∃ p σ',
    target T c σ = Ret p σ
    ∧ function_move d c σ = Ret () σ'
    ∧ target T d σ' = Ret p σ'
    ∧ p ≠ nullptr
    ∧ pointee T p σ' = Some v
    ∧ heap σ' = heap σ
    ∧ trace σ' = trace σ.
Proof.
  intros Hfit Hc Hct Hdc. apply content_of_shape in Hct.
  inversion Hct as [|? ? Hfit'|? a ? _ Ha]; subst; [congruence|].
  exists (to_heap a). eexists.
  split; [by exec|]. split; [by exec|]. by exec.
Qed.

(** X8. Moving a value out of a container and back: after move
    construction of [d] from [c] and move assignment of [d] to [c], the
    container [c] is exactly as it was and the heap is unchanged,
    whether the value lives in the buffer or on the heap. *)
Theorem move_out_and_back (T : type_id) (v : val) (c d : loc) (s : storage)
    (σ : state) :
  objs σ !! c = Some s →
  content_of (heap σ) s = Some (object T v) →
  d ≠ c →
  MoveConstructible T →
  ∃ σ1 σ2,
    function_move d c σ = Ret () σ1
    ∧ move_assign c d σ1 = Ret () σ2
    ∧ objs σ2 !! c = Some s
    ∧ heap σ2 = heap σ
    ∧ (∀ l, l ≠ c → l ≠ d → objs σ2 !! l = objs σ !! l).
Proof.
  intros Hc Hct Hdc Hmv. apply content_of_shape in Hct.
  unfold move_assign. rewrite decide_False by done.
  inversion Hct as [|? ? Hfit|? a ? Hfit Ha]; subst.
  - destruct (fits_nothrow T v Hfit) as [r1 Hr1].
    destruct (fits_nothrow T r1.1 Hfit) as [r2 Hr2].
    pose proof (Hmv v r1 Hr1) as Hv1. pose proof (Hmv r1.1 r2 Hr2) as Hv2.
    eexists _, _. split; [by exec|]. split; [by exec|]. cbn.
    rewrite lookup_insert_eq, Hv2, Hv1. split; [done|]. split; [done|].
    intros l ? ?. by rewrite !lookup_insert_ne.
  - eexists _, _. split; [by exec|]. split; [by exec|]. cbn.
    rewrite lookup_insert_ne, lookup_insert_eq by done.
    split; [done|]. split; [done|].
    intros l ? ?. by rewrite !lookup_insert_ne.
Qed.

(** X9. A container whose in-place value was moved from is not empty:
    invoking it does not throw [bad_function_call] but calls the
    moved-from object it still holds. *)
Theorem moved_from_inline_still_callable (T : type_id) (v : val) (c d : loc)
    (s : storage) (args : Args) (σ : state) :
  fits_small_storage T = true →
  objs σ !! c = Some s →
  content_of (heap σ) s = Some (object T v) →
  d ≠ c →
  ∃ σ' r,
    function_move d c σ = Ret () σ'
    ∧ move_result T v = inr r
    ∧ operator_bool c σ' = Ret true σ'
    ∧ operator_call c args σ'
      = match call (types E T) r.2 args with
        | inl e => Throw e σ'
        | inr x => Ret x σ'
        end.
Proof.
  intros Hfit Hc Hct Hdc. apply content_of_shape in Hct.
  inversion Hct as [|? ? _|? a ? Hfit' Ha]; subst; [|congruence].
  destruct (fits_nothrow T v Hfit) as [r Hr].
  eexists _, r. split; [by exec|]. split; [done|].
  split; exec; [done|]. by destruct (call (types E T) r.2 args).
Qed.

(** ** No block is lost

    Who owns a block changes in the middle of an assignment; between
    the members of [function], every block has a container. *)

Lemma no_leak_anti X X' σ :
  no_leak_except X σ → X' ⊆ X → no_leak_except X' σ.
Proof.
  intros H HX a Ha. destruct (H a Ha) as (l & s & Hl & Hn & Ho).
  exists l, s. split; [done|]. split; [set_solver|done].
Qed.

(** Writes that leave the owners outside [X] alone. *)
Lemma no_leak_rewrite X σ σ' :
  no_leak_except X σ →
  heap σ' = heap σ →
  (∀ l s, objs σ !! l = Some s → l ∉ X → is_Some (owned s) →
          objs σ' !! l = Some s) →
  no_leak_except X σ'.
Proof.
  intros H Hh Ho a. rewrite Hh. intros Ha.
  destruct (H a Ha) as (l & s & Hl & Hn & Hown).
  exists l, s. split; [|done]. apply Ho; [done|done|by rewrite Hown].
Qed.

(** A storage that owns nothing can be left out. *)
Lemma no_leak_exclude X l σ :
  no_leak_except X σ →
  (∀ s, objs σ !! l = Some s → owned s = None) →
  no_leak_except (X ∪ {[l]}) σ.
Proof.
  intros H Hl a Ha. destruct (H a Ha) as (l' & s & Hl' & Hn & Hown).
  exists l', s. split; [done|]. split; [|done].
  assert (l' ≠ l) by (intros ->; rewrite (Hl s Hl') in Hown; done).
  set_solver.
Qed.

Lemma no_leak_write X l s σ σ' :
  no_leak_except X σ → l ∈ X →
  objs σ' = <[l:=s]> (objs σ) → heap σ' = heap σ →
  no_leak_except (X ∖ {[l]}) σ'.
Proof.
  intros H Hl Ho Hh. apply (no_leak_anti X); [|set_solver].
  apply (no_leak_rewrite X σ); [done|done|].
  intros l' s' Hl' Hn _. rewrite Ho, lookup_insert_ne; [done|set_solver].
Qed.

Lemma no_leak_delete X l σ σ' :
  no_leak_except X σ → l ∈ X →
  objs σ' = delete l (objs σ) → heap σ' = heap σ →
  no_leak_except (X ∖ {[l]}) σ'.
Proof.
  intros H Hl Ho Hh. apply (no_leak_anti X); [|set_solver].
  apply (no_leak_rewrite X σ); [done|done|].
  intros l' s' Hl' Hn _. rewrite Ho, lookup_delete_ne; [done|set_solver].
Qed.

Lemma no_leak_fresh X l s σ σ' :
  no_leak_except X σ → objs σ !! l = None → owned s = None →
  objs σ' = <[l:=s]> (objs σ) → heap σ' = heap σ →
  no_leak_except (X ∪ {[l]}) σ'.
Proof.
  intros H Hl Hs Ho Hh. apply no_leak_exclude.
  - apply (no_leak_rewrite X σ); [done|done|].
    intros l' s' Hl' Hn _. rewrite Ho, lookup_insert_ne; [done|congruence].
  - intros s'. rewrite Ho, lookup_insert_eq. by intros [= <-].
Qed.

(** Overwriting a storage that owns nothing, inside or outside [X]. *)
Lemma no_leak_update X l s0 s σ σ' :
  no_leak_except X σ → objs σ !! l = Some s0 → owned s0 = None →
  objs σ' = <[l:=s]> (objs σ) → heap σ' = heap σ →
  no_leak_except X σ'.
Proof.
  intros H Hl Hs0 Ho Hh. apply (no_leak_rewrite X σ); [done|done|].
  intros l' s' Hl' Hn [a Ha]. rewrite Ho, lookup_insert_ne; [done|].
  intros ->. congruence.
Qed.

Lemma no_leak_free X src s a σ σ' :
  no_leak_except X σ →
  objs σ !! src = Some s → owned s = Some a →
  objs σ' = objs σ → heap σ' = delete a (heap σ) →
  no_leak_except (X ∪ {[src]}) σ'.
Proof.
  intros H Hs Hown Ho Hh a'. rewrite Hh, Ho.
  intros [x [Hne Ha']%lookup_delete_Some].
  destruct (H a') as (l & s' & Hl & Hn & Hown'); [by eexists|].
  exists l, s'. split; [done|]. split; [|done].
  assert (l ≠ src) by (intros ->; congruence). set_solver.
Qed.

Lemma no_leak_transfer X dst src T a σ σ' :
  no_leak_except X σ →
  dst ∈ X → dst ≠ src →
  objs σ !! src = Some {| buf := address a; desc := Some (td_of T) |} →
  fits_small_storage T = false →
  objs σ' = <[src:={| buf := address a; desc := Some td_empty |}]>
              (<[dst:={| buf := address a; desc := Some (td_of T) |}]> (objs σ)) →
  heap σ' = heap σ →
  no_leak_except (X ∖ {[dst]}) σ'.
Proof.
  intros H Hdst Hne Hs Hfit Ho Hh a'. rewrite Hh, Ho. intros Ha'.
  destruct (decide (a' = a)) as [->|Hna].
  - exists dst, {| buf := address a; desc := Some (td_of T) |}.
    rewrite lookup_insert_ne, lookup_insert_eq by done.
    split; [done|]. split; [set_solver|by apply owned_dynamic].
  - destruct (H a' Ha') as (l & s' & Hl & Hn & Hown').
    assert (l ≠ src).
    { intros ->. rewrite Hs in Hl. injection Hl as <-.
      rewrite owned_dynamic in Hown' by done. congruence. }
    assert (l ≠ dst) by (intros ->; done).
    exists l, s'. rewrite !lookup_insert_ne by done.
    split; [done|]. split; [set_solver|done].
Qed.

Lemma no_leak_new_block X dst T a x σ σ' :
  no_leak_except X σ →
  dst ∈ X → fits_small_storage T = false →
  objs σ' = <[dst:={| buf := address a; desc := Some (td_of T) |}]> (objs σ) →
  heap σ' = <[a:=x]> (heap σ) →
  no_leak_except (X ∖ {[dst]}) σ'.
Proof.
  intros H Hdst Hfit Ho Hh a'. rewrite Hh, Ho. intros Ha'.
  destruct (decide (a' = a)) as [->|Hna].
  - exists dst, {| buf := address a; desc := Some (td_of T) |}.
    rewrite lookup_insert_eq.
    split; [done|]. split; [set_solver|by apply owned_dynamic].
  - rewrite lookup_insert_ne in Ha' by done.
    destruct (H a' Ha') as (l & s' & Hl & Hn & Hown').
    assert (l ≠ dst) by (intros ->; done).
    exists l, s'. rewrite lookup_insert_ne by done.
    split; [done|]. split; [set_solver|done].
Qed.

(** The heap accounting is proved beside the invariant already
    established for each operation. *)
Lemma tidy_intro {A} X D X' D' Xe De (m : cpp A) :
  triple (inv X D) m (λ _, inv X' D') (λ _, inv Xe De) →
  triple (tidy X D) m (λ _, no_leak_except X') (λ _, no_leak_except Xe) →
  triple (tidy X D) m (λ _, tidy X' D') (λ _, tidy Xe De).
Proof.
  intros H1 H2 σ HP. specialize (H1 σ (proj1 HP)). specialize (H2 σ HP).
  by destruct (m σ).
Qed.

Lemma tidy_intro_nothrow {A} X D X' D' (m : cpp A) Qe :
  triple (inv X D) m (λ _, inv X' D') (λ _ _, False) →
  triple (tidy X D) m (λ _, no_leak_except X') (λ _ _, True) →
  triple (tidy X D) m (λ _, tidy X' D') Qe.
Proof.
  intros H1 H2 σ HP. specialize (H1 σ (proj1 HP)). specialize (H2 σ HP).
  by destruct (m σ).
Qed.

Lemma virtual_move_tidy X X' D dst src Qe :
  src ∈ D → src ∉ X → dst ∈ D → dst ∈ X → X' = X ∖ {[dst]} →
  triple (tidy X D)
    (let* d := read_desc src in move (deref d) dst src)
    (λ _, tidy X' D) Qe.
Proof.
  intros Hsrc Hn Hdst HdX ->.
  assert (dst ≠ src) as Hne by (intros ->; done).
  apply tidy_intro_nothrow; [by apply virtual_move_spec|].
  intros σ [Hinv Hnl].
  destruct (inv_lookup _ _ _ _ Hinv Hsrc) as [ss Hs].
  destruct (inv_lookup _ _ _ _ Hinv Hdst) as [sd Hd].
  destruct Hinv as [Hwf Hdom].
  destruct (wf_except_shape X σ src ss Hwf Hs Hn) as [c Hc].
  destruct Hc as [b|T v Hfit|T a v Hfit Ha].
  - exec. by eapply no_leak_write.
  - destruct (fits_nothrow T v Hfit) as [r Hr]. exec.
    eapply (no_leak_write X dst _
              {| objs := <[src:={| buf := inplace T r.2;
                                   desc := Some (td_of T) |}]> (objs σ);
                 heap := heap σ; trace := trace σ |});
      [|done|reflexivity|reflexivity].
    eapply (no_leak_update X src); [done|done| |reflexivity|reflexivity].
    unfold owned; cbn. by rewrite Hfit.
  - exec. by eapply no_leak_transfer.
Qed.

Lemma virtual_destroy_tidy X X' D src Qe :
  src ∈ D → src ∉ X → X' = X ∪ {[src]} →
  triple (tidy X D)
    (let* d := read_desc src in destroy (deref d) src)
    (λ _, tidy X' D) Qe.
Proof.
  intros Hsrc Hn ->.
  apply tidy_intro_nothrow; [by apply virtual_destroy_spec|].
  intros σ [Hinv Hnl].
  destruct (inv_lookup _ _ _ _ Hinv Hsrc) as [ss Hs].
  destruct Hinv as [Hwf Hdom].
  destruct (wf_except_shape X σ src ss Hwf Hs Hn) as [c Hc].
  destruct Hc as [b|T v Hfit|T a v Hfit Ha].
  - exec. apply no_leak_exclude; [done|].
    intros s. rewrite Hs. by intros [= <-].
  - exec. apply no_leak_exclude.
    + eapply (no_leak_update X src); [done|done| |reflexivity|reflexivity].
      unfold owned; cbn. by rewrite Hfit.
    + intros s. cbn. rewrite lookup_insert_eq. intros [= <-].
      unfold owned; cbn. by rewrite Hfit.
  - exec. eapply no_leak_free; [done|done| |reflexivity|reflexivity].
    by apply owned_dynamic.
Qed.

Lemma virtual_copy_tidy X X' D dst src :
  src ∈ D → src ∉ X → dst ∈ D → dst ∈ X → X' = X ∖ {[dst]} →
  triple (tidy X D)
    (let* d := read_desc src in copy (deref d) dst src)
    (λ _, tidy X' D) (λ _, tidy X D).
Proof.
  intros Hsrc Hn Hdst HdX ->.
  assert (dst ≠ src) as Hne by (intros ->; done).
  apply tidy_intro; [by apply virtual_copy_spec|].
  intros σ [Hinv Hnl].
  destruct (inv_lookup _ _ _ _ Hinv Hsrc) as [ss Hs].
  destruct (inv_lookup _ _ _ _ Hinv Hdst) as [sd Hd].
  destruct Hinv as [Hwf Hdom].
  destruct (wf_except_shape X σ src ss Hwf Hs Hn) as [c Hc].
  destruct Hc as [b|T v Hfit|T a v Hfit Ha].
  - exec. by eapply no_leak_write.
  - exec. destruct (copy_construct (types E T) v) as [e|v'] eqn:Hv; exec.
    + by eapply no_leak_rewrite.
    + by eapply no_leak_write.
  - exec. case_decide; exec; [|by eapply no_leak_rewrite].
    destruct (copy_construct (types E T) v) as [e|v'] eqn:Hv; exec.
    + by eapply no_leak_rewrite.
    + by eapply no_leak_new_block.
Qed.

Lemma tidy_constructor D this body :
  this ∉ D →
  triple (tidy {[this]} ({[this]} ∪ D)) body
    (λ _, tidy ∅ ({[this]} ∪ D)) (λ _, tidy {[this]} ({[this]} ∪ D)) →
  triple (tidy ∅ D) (constructor this body)
    (λ _, tidy ∅ ({[this]} ∪ D)) (λ _, tidy ∅ D).
Proof.
  intros Hthis Hbody σ [[Hwf Hdom] Hnl]. unfold constructor.
  assert (objs σ !! this = None) as Hfree
    by (apply not_elem_of_dom; by rewrite Hdom).
  assert (tidy {[this]} ({[this]} ∪ D) (set_objs <[this:=indeterminate]> σ))
    as Hpre.
  { split; [split|].
    - apply (wf_except_weaken (∅ ∪ {[this]})); [|set_solver].
      by eapply wf_except_exempt.
    - by cbn; rewrite dom_insert_L, Hdom.
    - apply (no_leak_anti (∅ ∪ {[this]})); [|set_solver].
      eapply no_leak_fresh; [done|done| |reflexivity|reflexivity]; done. }
  specialize (Hbody _ Hpre).
  destruct (body _) as [a σ'|e σ'|k]; [done| |done].
  destruct Hbody as [[Hwf' Hdom'] Hnl']. split; [split|].
  - apply (wf_except_weaken ({[this]} ∖ {[this]})); [|set_solver].
    by eapply wf_except_delete.
  - cbn. rewrite dom_delete_L, Hdom'. set_solver.
  - apply (no_leak_anti ({[this]} ∖ {[this]})); [|set_solver].
    eapply no_leak_delete; [done|set_solver|done|done].
Qed.

Lemma tidy_with_local {A} D (body : loc → cpp A) :
  (∀ b, b ∉ D →
     triple (tidy {[b]} ({[b]} ∪ D)) (body b)
       (λ _, tidy {[b]} ({[b]} ∪ D)) (λ _, tidy {[b]} ({[b]} ∪ D))) →
  triple (tidy ∅ D) (with_local body) (λ _, tidy ∅ D) (λ _, tidy ∅ D).
Proof.
  intros Hbody σ [[Hwf Hdom] Hnl]. unfold with_local.
  set (b := fresh (dom (objs σ))).
  assert (b ∉ D) as Hb by (rewrite <-Hdom; apply is_fresh).
  assert (objs σ !! b = None) as Hfree by apply fresh_local.
  specialize (Hbody b Hb (set_objs <[b:=indeterminate]> σ)).
  assert (∀ σ', tidy {[b]} ({[b]} ∪ D) σ' → tidy ∅ D (set_objs (delete b) σ'))
    as Hout.
  { intros σ' [[Hwf' Hdom'] Hnl']. split; [split|].
    - apply (wf_except_weaken ({[b]} ∖ {[b]})); [|set_solver].
      by eapply wf_except_delete.
    - cbn. rewrite dom_delete_L, Hdom'. set_solver.
    - apply (no_leak_anti ({[b]} ∖ {[b]})); [|set_solver].
      eapply no_leak_delete; [done|set_solver|done|done]. }
  assert (tidy {[b]} ({[b]} ∪ D) (set_objs <[b:=indeterminate]> σ)) as Hpre.
  { split; [split|].
    - apply (wf_except_weaken (∅ ∪ {[b]})); [|set_solver].
      by eapply wf_except_exempt.
    - by cbn; rewrite dom_insert_L, Hdom.
    - apply (no_leak_anti (∅ ∪ {[b]})); [|set_solver].
      eapply no_leak_fresh; [done|done| |reflexivity|reflexivity]; done. }
  specialize (Hbody Hpre).
  destruct (body b _) as [a σ'|e σ'|k]; [by apply Hout|by apply Hout|done].
Qed.

Lemma no_leak_heap_update X a x x' σ σ' :
  no_leak_except X σ →
  heap σ !! a = Some x →
  objs σ' = objs σ → heap σ' = <[a:=x']> (heap σ) →
  no_leak_except X σ'.
Proof.
  intros H Ha Ho Hh a'. rewrite Ho, Hh. intros Ha'. apply H.
  destruct (decide (a' = a)) as [->|Hne]; [by eexists|].
  by rewrite lookup_insert_ne in Ha'.
Qed.

Lemma operator_call_tidy D this args :
  this ∈ D →
  triple (tidy ∅ D) (operator_call this args) (λ _, tidy ∅ D) (λ _, tidy ∅ D).
Proof.
  intros Hthis. apply tidy_intro; [apply operator_call_inv; [done|set_solver]|].
  intros σ [Hinv Hnl].
  destruct (inv_lookup _ _ _ _ Hinv Hthis) as [s Hs].
  destruct Hinv as [Hwf Hdom].
  destruct (wf_except_shape ∅ σ this s Hwf Hs (not_elem_of_empty this))
    as [c Hc].
  destruct Hc as [b|T v Hfit|T a v Hfit Ha]; exec.
  - done.
  - by destruct (call (types E T) v args).
  - assert (no_leak_except ∅
              {| objs := objs σ;
                 heap := <[a:=(T, (call_lvalue (types E T) v args).1)]> (heap σ);
                 trace := trace σ |}) as H
      by (by eapply no_leak_heap_update).
    by destruct (call_lvalue (types E T) v args).2.
Qed.

Lemma function_default_tidy D this :
  this ∉ D →
  triple (tidy ∅ D) (function_default this)
    (λ _, tidy ∅ ({[this]} ∪ D)) (λ _, tidy ∅ D).
Proof.
  intros Hthis σ [Hinv Hnl].
  pose proof (function_default_inv D this σ Hinv) as H.
  rewrite function_default_spec in H |- *. split; [done|].
  apply (no_leak_anti (∅ ∪ {[this]})); [|set_solver].
  eapply no_leak_fresh; [done| | |reflexivity|reflexivity]; [|done].
  apply not_elem_of_dom. by rewrite (proj2 Hinv).
Qed.

Lemma function_from_tidy D T this v :
  this ∉ D →
  triple (tidy ∅ D) (function_from T this v)
    (λ _, tidy ∅ ({[this]} ∪ D)) (λ _, tidy ∅ D).
Proof.
  intros Hthis σ [Hinv Hnl].
  pose proof (function_from_inv D T this v Hthis σ Hinv) as H.
  assert (objs σ !! this = None) as Hnone
    by (apply not_elem_of_dom; by rewrite (proj2 Hinv)).
  assert (Hfree : delete this (objs σ) = objs σ) by by apply delete_id.
  assert (∀ σ', objs σ' = objs σ → heap σ' = heap σ → no_leak_except ∅ σ')
    as Hsame.
  { intros σ' Ho Hh. apply (no_leak_rewrite ∅ σ); [done|done|].
    intros l s Hl _ _. by rewrite Ho. }
  destruct (fits_small_storage T) eqn:Hfit.
  - destruct (fits_nothrow T v Hfit) as [r Hr].
    rewrite (function_from_small T this v r σ Hfit Hr) in H |- *.
    split; [done|].
    apply (no_leak_anti (∅ ∪ {[this]})); [|set_solver].
    eapply no_leak_fresh; [done|done| |reflexivity|reflexivity].
    unfold owned; cbn. by rewrite Hfit.
  - rewrite (function_from_dynamic T this v σ Hfit) in H |- *.
    case_decide; [|split; [done|by apply Hsame; cbn]].
    cbn in H |- *. destruct (move_result T v) as [e|r].
    + split; [done|by apply Hsame; cbn].
    + split; [done|].
      apply (no_leak_anti ({[this]} ∖ {[this]})); [|set_solver].
      eapply (no_leak_new_block {[this]} this T _ _
                (set_objs <[this:=indeterminate]> σ));
        [|set_solver|done|cbn; by rewrite insert_insert_eq|reflexivity].
      apply (no_leak_anti (∅ ∪ {[this]})); [|set_solver].
      eapply no_leak_fresh; [done|done| |reflexivity|reflexivity]; done.
Qed.

Lemma function_copy_tidy D this other :
  this ∉ D → other ∈ D →
  triple (tidy ∅ D) (function_copy this other)
    (λ _, tidy ∅ ({[this]} ∪ D)) (λ _, tidy ∅ D).
Proof.
  intros Hthis Hother. apply tidy_constructor; [done|].
  apply virtual_copy_tidy; set_solver.
Qed.

Lemma function_move_tidy D this other :
  this ∉ D → other ∈ D →
  triple (tidy ∅ D) (function_move this other)
    (λ _, tidy ∅ ({[this]} ∪ D)) (λ _, tidy ∅ D).
Proof.
  intros Hthis Hother. apply tidy_constructor; [done|].
  apply triple_noexcept, virtual_move_tidy; set_solver.
Qed.

Lemma copy_assign_tidy D this rhs :
  this ∈ D → rhs ∈ D →
  triple (tidy ∅ D) (copy_assign this rhs) (λ _, tidy ∅ D) (λ _, tidy ∅ D).
Proof.
  intros Hthis Hrhs. unfold copy_assign.
  case_decide as Hne; [by intros σ H|].
  apply tidy_with_local. intros b Hb.
  eapply (triple_bind _ _ _ (λ _, tidy ∅ ({[b]} ∪ D)));
    [apply virtual_move_tidy; set_solver|intros _].
  eapply (triple_bind _ _ _ (λ _, tidy {[this]} ({[b]} ∪ D)));
    [apply virtual_destroy_tidy; set_solver|intros _].
  eapply (triple_bind _ _ _ (λ _, tidy ∅ ({[b]} ∪ D))).
  - eapply triple_try_catch; [apply virtual_copy_tidy; set_solver|].
    intros e; cbn.
    eapply (triple_bind _ _ _ (λ _, tidy ∅ ({[b]} ∪ D)));
      [apply virtual_move_tidy; set_solver|intros _].
    eapply (triple_bind _ _ _ (λ _, tidy {[b]} ({[b]} ∪ D)));
      [apply virtual_destroy_tidy; set_solver|intros _].
    by intros σ H.
  - intros _. apply virtual_destroy_tidy; set_solver.
Qed.

Lemma move_assign_tidy D this rhs :
  this ∈ D → rhs ∈ D →
  triple (tidy ∅ D) (move_assign this rhs) (λ _, tidy ∅ D) (λ _, tidy ∅ D).
Proof.
  intros Hthis Hrhs. unfold move_assign. apply triple_noexcept.
  case_decide as Hne; [by intros σ H|].
  eapply (triple_bind _ _ _ (λ _, tidy {[this]} D));
    [apply virtual_destroy_tidy; set_solver|intros _].
  apply virtual_move_tidy; set_solver.
Qed.

Lemma function_destructor_tidy D this :
  this ∈ D →
  triple (tidy ∅ D) (function_destructor this)
    (λ _, tidy ∅ (D ∖ {[this]})) (λ _, tidy ∅ D).
Proof.
  intros Hthis. unfold function_destructor.
  eapply (triple_bind _ _ _ (λ _, tidy {[this]} D));
    [apply virtual_destroy_tidy; set_solver|intros _].
  intros σ [[Hwf Hdom] Hnl]. split; [split|].
  - apply (wf_except_weaken ({[this]} ∖ {[this]})); [|set_solver].
    by eapply wf_except_delete.
  - cbn. by rewrite dom_delete_L, Hdom.
  - apply (no_leak_anti ({[this]} ∖ {[this]})); [|set_solver].
    eapply no_leak_delete; [done|set_solver|done|done].
Qed.

Lemma run_tidy o σ :
  tidy ∅ (dom (objs σ)) σ → applicable o σ →
  match run o σ with
  | Ret _ σ' | Throw _ σ' => tidy ∅ (dom (objs σ')) σ'
  | Fault _ => False
  end.
Proof.
  intros Htidy Happ.
  assert (∀ (m : cpp unit) D',
    triple (tidy ∅ (dom (objs σ))) m (λ _, tidy ∅ D')
      (λ _, tidy ∅ (dom (objs σ))) →
    match m σ with
    | Ret _ σ' | Throw _ σ' => tidy ∅ (dom (objs σ')) σ'
    | Fault _ => False
    end) as Hrun.
  { intros m D' Hm. specialize (Hm σ Htidy).
    destruct (m σ) as [a σ'|e σ'|k]; [| |done];
      destruct Hm as [[Hwf Hdom] Hnl]; by rewrite Hdom. }
  destruct o as [this|T this v|this other|this other|this rhs|this rhs|this
                 |this args];
    cbn in Happ |- *.
  8: { apply elem_of_dom in Happ. eapply Hrun.
       eapply (triple_bind _ _ _ (λ _, tidy ∅ (dom (objs σ))));
         [by apply operator_call_tidy|].
       intros _ σ' H. exact H. }
  - eapply Hrun, function_default_tidy. by apply not_elem_of_dom.
  - eapply Hrun, function_from_tidy. by apply not_elem_of_dom.
  - destruct Happ as [Hthis Hother%elem_of_dom].
    eapply Hrun, function_copy_tidy; [by apply not_elem_of_dom|done].
  - destruct Happ as [Hthis Hother%elem_of_dom].
    eapply Hrun, function_move_tidy; [by apply not_elem_of_dom|done].
  - destruct Happ as [Hthis%elem_of_dom Hrhs%elem_of_dom].
    by eapply Hrun, copy_assign_tidy.
  - destruct Happ as [Hthis%elem_of_dom Hrhs%elem_of_dom].
    by eapply Hrun, move_assign_tidy.
  - apply elem_of_dom in Happ. by eapply Hrun, function_destructor_tidy.
Qed.

Lemma reachable_tidy σ : reachable σ → tidy ∅ (dom (objs σ)) σ.
Proof.
  induction 1 as [|o σ σ' _ IH Happ Hrun|o σ e σ' _ IH Happ Hrun].
  - split; [split; [|done]|].
    + split; intros ?; cbn; intros; by rewrite lookup_empty in *.
    + intros a [x Hx]. cbn in Hx. by rewrite lookup_empty in Hx.
  - pose proof (run_tidy o σ IH Happ) as H. by rewrite Hrun in H.
  - pose proof (run_tidy o σ IH Happ) as H. by rewrite Hrun in H.
Qed.

(** X10. No operation on containers loses a heap block.  In every
    state a program can reach, each block of the heap is owned by
    exactly one container, whether the operations before returned or
    threw; so once every container is destroyed the heap is empty. *)
Theorem no_block_is_lost (σ : state) :
  reachable σ →
  (∀ a, is_Some (heap σ !! a) →
     ∃ l s, objs σ !! l = Some s ∧ owned s = Some a
            ∧ ∀ l' s', objs σ !! l' = Some s' → owned s' = Some a → l' = l)
  ∧ (objs σ = ∅ → heap σ = ∅).
Proof.
  intros Hreach.
  destruct (reachable_tidy σ Hreach) as [_ Hnl].
  pose proof (reachable_wf σ Hreach) as Hwf.
  assert (∀ a, is_Some (heap σ !! a) →
     ∃ l s, objs σ !! l = Some s ∧ owned s = Some a
            ∧ ∀ l' s', objs σ !! l' = Some s' → owned s' = Some a → l' = l)
    as Hown.
  { intros a Ha. destruct (Hnl a Ha) as (l & s & Hl & _ & Hs).
    exists l, s. split; [done|]. split; [done|].
    intros l' s' Hl' Hs'. destruct (decide (l' = l)) as [|Hne]; [done|].
    by destruct (wf_state_owner σ l' l s' s a Hwf Hl' Hl Hne Hs'). }
  split; [done|].
  intros Hempty. apply map_empty. intros a.
  destruct (heap σ !! a) as [x|] eqn:Ha; [|done].
  destruct (Hown a) as (l & s & Hl & _); [by eexists|].
  by rewrite Hempty, lookup_empty in Hl.
Qed.

(** X11. Move construction never allocates, never frees and never
    throws.  It runs the move constructor of the held type once when
    the value lives in the buffer, and no operation of the held type at
    all when the value lives on the heap or the source is empty. *)
Theorem move_construction_never_allocates (c d : loc) (s : storage)
    (ct : content) (σ : state) :
  objs σ !! c = Some s →
  content_of (heap σ) s = Some ct →
  d ≠ c →
  ∃ σ',
    function_move d c σ = Ret () σ'
    ∧ heap σ' = heap σ
    ∧ trace σ'
      = trace σ ++ match ct with
                   | nothing => []
                   | object T _ => if fits_small_storage T then [ev_move T] else []
                   end.
Proof.
  intros Hc Hct Hdc. apply content_of_shape in Hct.
  destruct Hct as [b|T v Hfit|T a v Hfit Ha].
  - eexists. split; [by exec|]. cbn. by rewrite app_nil_r.
  - destruct (fits_nothrow T v Hfit) as [r Hr].
    eexists. split; [by exec|]. cbn. by rewrite Hfit.
  - eexists. split; [by exec|]. cbn. by rewrite Hfit, app_nil_r.
Qed.

End Model.

(** * A concrete program state

    Four callable types over the signature [nat (nat)] on a machine
    with 8-byte pointers: a small lambda, a large function object, a
    small object whose copy constructor throws, and a large object whose
    call operator is not const and counts its calls. *)

Definition adder : @callable nat nat nat := {|
  sizeof := 4; alignof := 4;
  copy_construct v := inr v;
  move_construct := nothrow_move (λ v, (v, v));
  call v x := inr (v + x);
  call_lvalue v x := (v, inr (v + x))
|}.

Definition table : @callable nat nat nat := {|
  sizeof := 64; alignof := 8;
  copy_construct v := inr v;
  move_construct := nothrow_move (λ v, (v, 0));
  call v x := inr (v * x);
  call_lvalue v x := (v, inr (v * x))
|}.

Definition fragile : @callable nat nat nat := {|
  sizeof := 8; alignof := 8;
  copy_construct _ := inl (thrown 7);
  move_construct := nothrow_move (λ v, (v, 0));
  call v _ := inr v;
  call_lvalue v _ := (v, inr v)
|}.

Definition counter : @callable nat nat nat := {|
  sizeof := 16; alignof := 8;
  copy_construct v := inr v;
  move_construct := nothrow_move (λ v, (v, 0));
  call v x := inr (v + x);
  call_lvalue v x := (S v, inr (v + x))
|}.

Definition T_adder : type_id := 1%positive.
Definition T_table : type_id := 2%positive.
Definition T_fragile : type_id := 3%positive.
Definition T_counter : type_id := 4%positive.

Definition the_adder : loc := 1%positive.
Definition the_table : loc := 2%positive.
Definition the_fragile : loc := 3%positive.
Definition the_empty : loc := 4%positive.
Definition unused : loc := 5%positive.
Definition the_counter : loc := 6%positive.
Definition block : addr := 7%positive.
Definition cell : addr := 8%positive.

Definition example : @environment nat nat nat := {|
  types T :=
    match T with
    | 1%positive => adder
    | 2%positive => table
    | 4%positive => counter
    | _ => fragile
    end;
  sizeof_voidp := 8;
  alignof_voidp := 8;
  heap_capacity := 4
|}.

(** An adder at 1, a table at 2 (in a heap block), a fragile object at
    3 and an empty container at 4. *)
Definition ex_state : @state nat := {|
  objs :=
    <[the_adder:={| buf := inplace T_adder 10; desc := Some (td_of T_adder) |}]>
   (<[the_table:={| buf := address block; desc := Some (td_of T_table) |}]>
   (<[the_fragile:={| buf := inplace T_fragile 30; desc := Some (td_of T_fragile) |}]>
   (<[the_empty:={| buf := raw; desc := Some td_empty |}]> ∅)));
  heap := <[block:=(T_table, 20)]> ∅;
  trace := []
|}.

(** A counter holding 5 in a heap block. *)
Definition counting_state : @state nat := {|
  objs := <[the_counter:={| buf := address cell; desc := Some (td_of T_counter) |}]> ∅;
  heap := <[cell:=(T_counter, 5)]> ∅;
  trace := []
|}.

(** ** Types whose constructors do not preserve the value

    A small object whose move constructor stamps the object it makes,
    and a small object whose copy constructor does. *)

Definition stamper : @callable nat nat nat := {|
  sizeof := 4; alignof := 4;
  copy_construct v := inr v;
  move_construct := nothrow_move (λ v, (S v, v));
  call v x := inr (v + x);
  call_lvalue v x := (v, inr (v + x))
|}.

Definition drifter : @callable nat nat nat := {|
  sizeof := 4; alignof := 4;
  copy_construct v := inr (S v);
  move_construct := nothrow_move (λ v, (v, v));
  call v x := inr (v + x);
  call_lvalue v x := (v, inr (v + x))
|}.

Definition T_stamper : type_id := 1%positive.
Definition T_drifter : type_id := 2%positive.

Definition the_stamper : loc := 1%positive.
Definition the_drifter : loc := 2%positive.

Definition skewed : @environment nat nat nat := {|
  types T :=
    match T with
    | 1%positive => stamper
    | 2%positive => drifter
    | _ => fragile
    end;
  sizeof_voidp := 8;
  alignof_voidp := 8;
  heap_capacity := 4
|}.

(** A stamper holding 10 at 1, a drifter holding 20 at 2 and a fragile
    object at 3. *)
Definition skewed_state : @state nat := {|
  objs :=
    <[the_stamper:={| buf := inplace T_stamper 10; desc := Some (td_of T_stamper) |}]>
   (<[the_drifter:={| buf := inplace T_drifter 20; desc := Some (td_of T_drifter) |}]>
   (<[the_fragile:={| buf := inplace T_fragile 30; desc := Some (td_of T_fragile) |}]> ∅));
  heap := ∅;
  trace := []
|}.

Lemma example_MoveConstructible T : MoveConstructible example T.
Proof.
  intros v r. unfold move_result.
  destruct T as [[]|[|[]|]|]; cbn; by intros [= <-].
Qed.

Lemma example_CopyConstructible T :
  T ≠ T_fragile → (∀ v, copy_construct (types example T) v = inr v) →
  CopyConstructible example T.
Proof. intros _ H v v'. rewrite H. by intros [= <-]. Qed.

Lemma ex_state_wf : wf_state example ex_state.
Proof. by apply (bool_decide_unpack _); vm_compute. Qed.

(** The backup protocol at work: the adder is moved to the backup and
    what is left of it destroyed, the copy throws, the backup is moved
    back and what is left of the backup destroyed. *)
Example backup_protocol_trace :
  match copy_assign example the_adder the_fragile ex_state with
  | Throw e σ' =>
      e = thrown 7
      ∧ trace σ' = [ev_move T_adder; ev_destroy T_adder; ev_copy T_fragile;
                    ev_move T_adder; ev_destroy T_adder]
  | _ => False
  end.
Proof. by vm_compute. Qed.

(** Assigning a small object over a heap object frees the block once. *)
Example strategy_switch_frees_block :
  match copy_assign example the_table the_adder ex_state with
  | Ret _ σ' =>
      objs σ' !! the_table
      = Some {| buf := inplace T_adder 10; desc := Some (td_of T_adder) |}
      ∧ heap σ' = ∅
      ∧ trace σ' = [ev_copy T_adder; ev_destroy T_table; ev_free block]
  | _ => False
  end.
Proof. by vm_compute. Qed.

(** ** The claims on the concrete state *)

(** Copy assignment of the fragile object at 3 to the adder at 1 throws
    what the copy constructor threw and leaves everything in place. *)
Lemma copy_assign_strong_guarantee_witness :
  wf_state example ex_state
  ∧ observe (copy_assign example the_adder the_fragile ex_state) = throws (thrown 7)
  ∧ ∃ σ', copy_assign example the_adder the_fragile ex_state = Throw (thrown 7) σ'
          ∧ objs σ' = objs ex_state ∧ heap σ' = heap ex_state.
Proof.
  split; [exact ex_state_wf|].
  destruct (copy_assign_strong_guarantee example the_adder the_fragile
              {| buf := inplace T_adder 10; desc := Some (td_of T_adder) |}
              {| buf := inplace T_fragile 30; desc := Some (td_of T_fragile) |}
              (object T_adder 10) (object T_fragile 30) ex_state)
    as [Hobs Hpost].
  - exact ex_state_wf.
  - reflexivity.
  - reflexivity.
  - reflexivity.
  - reflexivity.
  - discriminate.
  - split; [exact Hobs|].
    destruct (copy_assign example the_adder the_fragile ex_state) as [a σ'|e σ'|k];
      [discriminate Hobs| |discriminate Hobs].
    injection Hobs as ->. exists σ'.
    destruct Hpost as (_ & Hh & _ & _ & _ & _ & _ & Hstrong).
    destruct Hstrong as (_ & _ & Ho & _);
      [intros T v _ _; apply example_MoveConstructible|].
    by repeat split.
Defined.

(** C1 fails for a value kept in the buffer whose move constructor does
    not preserve it: the stamper at 1 holds 10 and answers 10; after the
    failed assignment of the fragile object at 3 it holds 12 and answers
    12. *)
Lemma failed_assignment_changes_inline_target :
  wf_state skewed skewed_state
  ∧ fits_small_storage skewed T_stamper = true
  ∧ pointee T_stamper (to_buffer the_stamper) skewed_state = Some 10
  ∧ operator_call skewed the_stamper 0 skewed_state = Ret 10 skewed_state
  ∧ ∃ σ', copy_assign skewed the_stamper the_fragile skewed_state
          = Throw (thrown 7) σ'
          ∧ target skewed T_stamper the_stamper σ' = Ret (to_buffer the_stamper) σ'
          ∧ pointee T_stamper (to_buffer the_stamper) σ' = Some 12
          ∧ operator_call skewed the_stamper 0 σ' = Ret 12 σ'.
Proof.
  split; [by apply (bool_decide_unpack _); vm_compute|].
  split; [reflexivity|]. split; [reflexivity|]. split; [reflexivity|].
  eexists. split; [vm_compute; reflexivity|].
  split; [|split]; vm_compute; reflexivity.
Qed.



Lemma empty_invocation_throws_witness :
  operator_bool the_empty ex_state = Ret false ex_state
  ∧ operator_call example the_empty 0 ex_state = Throw bad_function_call ex_state.
Proof.
  split; [reflexivity|].
  apply (proj1 (empty_invocation_throws example ex_state the_empty 0)). reflexivity.
Defined.

Lemma inline_iff_fits_witness :
  fits_small_storage example T_adder = true
  ∧ fits_small_storage example T_table = false.
Proof.
  split.
  - apply (proj1 (inline_iff_fits example T_adder unused 0 ex_state)). by vm_compute.
  - destruct (fits_small_storage example T_table) eqn:H; [|reflexivity].
    apply (proj1 (inline_iff_fits example T_table unused 0 ex_state)) in H.
    destruct H as [H _]. exfalso. apply H. reflexivity.
Defined.

Lemma owned_move_resets_source_witness :
  fits_small_storage example T_table = false
  ∧ ∃ σ', move (deref example (td_of T_table)) the_empty the_table ex_state = Ret () σ'
          ∧ operator_bool the_table σ' = Ret false σ'
          ∧ heap σ' = heap ex_state.
Proof.
  split; [reflexivity|].
  destruct (owned_move_resets_source example T_table 20 the_empty the_table
              {| buf := address block; desc := Some (td_of T_table) |}
              {| buf := raw; desc := Some td_empty |} ex_state)
    as (a & σ' & _ & Hmove & _ & _ & Hh & _ & _ & Hb & _).
  - reflexivity.
  - reflexivity.
  - reflexivity.
  - reflexivity.
  - discriminate.
  - by exists σ'.
Defined.

Lemma target_round_trip_witness :
  ∃ σ' p, function_from example T_table unused 20 ex_state = Ret () σ'
          ∧ target example T_table unused σ' = Ret p σ'
          ∧ p ≠ nullptr
          ∧ pointee T_table p σ' = Some 20
          ∧ target example T_adder unused σ' = Ret nullptr σ'.
Proof.
  destruct (target_round_trip example T_table 20 unused ex_state) as [H _].
  remember (function_from example T_table unused 20 ex_state) as o eqn:Hrun in *.
  destruct o as [[] σ'|e σ'|k]; [|by vm_compute in Hrun|destruct H].
  destruct H as [(p & r & Hp & Hnn & _ & _ & Hv) Hother].
  exists σ', p. split; [reflexivity|]. split; [exact Hp|]. split; [exact Hnn|].
  split; [apply Hv, example_MoveConstructible|].
  apply Hother. discriminate.
Defined.

(** C6 fails for a type whose move constructor does not preserve the
    value: a container constructed from a stamper holding 10 answers the
    typed probe with a pointer to a stamper holding 11. *)
Lemma probe_finds_moved_value :
  ∃ σ', function_from skewed T_stamper unused 10 skewed_state = Ret () σ'
        ∧ target skewed T_stamper unused σ' = Ret (to_buffer unused) σ'
        ∧ pointee T_stamper (to_buffer unused) σ' = Some 11
        ∧ pointee T_stamper (to_buffer unused) σ' ≠ Some 10.
Proof.
  eexists. split; [vm_compute; reflexivity|].
  split; [vm_compute; reflexivity|]. split; [vm_compute; reflexivity|].
  vm_compute. discriminate.
Qed.

Lemma copy_then_invoke_witness :
  CopyConstructible example T_table
  ∧ ∃ σ', function_copy example unused the_table ex_state = Ret () σ'
          ∧ observe (operator_call example unused 3 σ') = returns 60
          ∧ observe (operator_call example the_table 3 ex_state) = returns 60.
Proof.
  assert (CopyConstructible example T_table) as Hcc
    by (by apply example_CopyConstructible).
  split; [exact Hcc|].
  destruct (copy_then_invoke example the_table unused
              {| buf := address block; desc := Some (td_of T_table) |}
              (object T_table 20) 3 ex_state) as [Hobs Hpost].
  - reflexivity.
  - reflexivity.
  - discriminate.
  - destruct (function_copy example unused the_table ex_state) as [[] σ'|e σ'|k];
      [|discriminate Hobs|discriminate Hobs].
    exists σ'. destruct Hpost as (_ & _ & Hd).
    rewrite Hd; [done|]. by intros T v [= <- <-].
Defined.

(** C7 fails for a type whose copy constructor does not preserve the
    value: the drifter at 2 holds 20 and answers 20, its copy holds 21
    and answers 21. *)
Lemma copy_answers_differently :
  operator_call skewed the_drifter 0 skewed_state = Ret 20 skewed_state
  ∧ ∃ σ', function_copy skewed unused the_drifter skewed_state = Ret () σ'
          ∧ operator_call skewed the_drifter 0 σ' = Ret 20 σ'
          ∧ operator_call skewed unused 0 σ' = Ret 21 σ'.
Proof.
  split; [reflexivity|].
  eexists. split; [vm_compute; reflexivity|].
  split; vm_compute; reflexivity.
Qed.

Lemma copy_keeps_descriptor_witness :
  ∃ σ' s', function_copy example unused the_table ex_state = Ret () σ'
           ∧ objs σ' !! unused = Some s'
           ∧ desc s' = Some (td_of T_table).
Proof.
  destruct (copy_keeps_descriptor example the_table unused
              {| buf := address block; desc := Some (td_of T_table) |}
              (object T_table 20) ex_state) as [Hobs Hpost].
  - reflexivity.
  - reflexivity.
  - discriminate.
  - destruct (function_copy example unused the_table ex_state) as [[] σ'|e σ'|k];
      [|discriminate Hobs|discriminate Hobs].
    destruct Hpost as [(s' & Hs' & Hd) _]. by exists σ', s'.
Defined.

(** A program: default-construct a container, construct a second one
    from a table, copy-assign the second to the first. *)
Definition after (o : operation) (σ : @state nat) : state :=
  match run example o σ with
  | Ret _ σ' | Throw _ σ' => σ'
  | Fault _ => σ
  end.

Definition prog_state : @state nat :=
  after (op_copy_assign the_adder the_table)
    (after (op_from T_table the_table 20)
       (after (op_default the_adder) initial)).

Lemma reachable_after o σ :
  reachable example σ → applicable o σ → reachable example (after o σ).
Proof.
  intros Hr Ha.
  pose proof (reachable_step example o σ Hr Ha) as H.
  unfold after. by destruct (run example o σ).
Qed.

Lemma prog_state_reachable : reachable example prog_state.
Proof.
  repeat apply reachable_after; try apply reachable_initial.
  - reflexivity.
  - reflexivity.
  - split; eexists; by vm_compute.
Qed.

Lemma table_pointer_never_null_witness :
  reachable example prog_state
  ∧ wf_state example prog_state
  ∧ operator_bool the_adder prog_state = Ret true prog_state.
Proof.
  split; [exact prog_state_reachable|].
  destruct (table_pointer_never_null example prog_state prog_state_reachable)
    as (Hwf & _ & _ & _).
  split; [exact Hwf|]. by vm_compute.
Defined.

(** ** The further properties on the concrete state *)

Lemma destructor_releases_witness :
  ∃ σ', function_destructor example the_table ex_state = Ret () σ'
        ∧ objs σ' = delete the_table (objs ex_state)
        ∧ heap σ' = delete block (heap ex_state)
        ∧ trace σ' = [ev_destroy T_table; ev_free block].
Proof.
  destruct (destructor_releases example the_table
              {| buf := address block; desc := Some (td_of T_table) |}
              (object T_table 20) ex_state eq_refl eq_refl)
    as (σ' & Hrun & Ho & Hrest).
  change (fits_small_storage example T_table) with false in Hrest.
  destruct Hrest as (a & Ha & Hh & Ht). injection Ha as <-.
  by exists σ'.
Defined.

(** The counter on the heap answers 5 + 3 and holds 6 afterwards; the
    adder in its buffer answers and stays as it is. *)
Lemma invocation_forwards_witness :
  operator_call example the_counter 3 counting_state
  = Ret 8 (set_heap <[cell:=(T_counter, 6)]> counting_state)
  ∧ operator_call example the_adder 3 ex_state = Ret 13 ex_state
  ∧ operator_call example the_empty 3 ex_state = Throw bad_function_call ex_state.
Proof.
  split; [|split].
  - exact (invocation_forwards example the_counter
             {| buf := address cell; desc := Some (td_of T_counter) |}
             (object T_counter 5) 3 counting_state eq_refl eq_refl).
  - exact (invocation_forwards example the_adder
             {| buf := inplace T_adder 10; desc := Some (td_of T_adder) |}
             (object T_adder 10) 3 ex_state eq_refl eq_refl).
  - exact (invocation_forwards example the_empty
             {| buf := raw; desc := Some td_empty |}
             nothing 3 ex_state eq_refl eq_refl).
Defined.

Lemma target_characterisation_witness :
  target example T_table the_table ex_state = Ret (to_heap block) ex_state
  ∧ pointee T_table (to_heap block) ex_state = Some 20
  ∧ target example T_adder the_table ex_state = Ret nullptr ex_state.
Proof.
  destruct (target_characterisation example the_table
              {| buf := address block; desc := Some (td_of T_table) |}
              (object T_table 20) T_table ex_state eq_refl eq_refl)
    as (p & Hp & Hrest).
  destruct (target_characterisation example the_table
              {| buf := address block; desc := Some (td_of T_table) |}
              (object T_table 20) T_adder ex_state eq_refl eq_refl)
    as (q & Hq & Hrest').
  rewrite decide_True in Hrest by done.
  rewrite decide_False in Hrest' by done.
  destruct Hrest as [Hv Hpeq]. cbn in Hpeq. subst p q. done.
Defined.

Lemma copy_construction_all_or_nothing_witness :
  ∃ σ', function_copy example unused the_fragile ex_state = Throw (thrown 7) σ'
        ∧ objs σ' = objs ex_state ∧ heap σ' = heap ex_state.
Proof.
  pose proof (copy_construction_all_or_nothing example the_fragile unused
                {| buf := inplace T_fragile 30; desc := Some (td_of T_fragile) |}
                (object T_fragile 30) ex_state eq_refl eq_refl eq_refl) as H.
  remember (function_copy example unused the_fragile ex_state) as o eqn:Hrun in *.
  destruct o as [a σ'|e σ'|k];
    [by vm_compute in Hrun| |by vm_compute in Hrun].
  destruct H as (Ho & Hh & Hout). injection Hout as <-. by exists σ'.
Defined.

Lemma copy_then_destroy_restores_witness :
  ∃ σ1 σ2, function_copy example unused the_table ex_state = Ret () σ1
           ∧ function_destructor example unused σ1 = Ret () σ2
           ∧ objs σ2 = objs ex_state ∧ heap σ2 = heap ex_state.
Proof.
  pose proof (copy_then_destroy_restores example the_table unused
                {| buf := address block; desc := Some (td_of T_table) |}
                (object T_table 20) ex_state eq_refl eq_refl eq_refl) as H.
  remember (function_copy example unused the_table ex_state) as o eqn:Hrun in *.
  destruct o as [[] σ1|e σ1|k]; [|by vm_compute in Hrun|done].
  destruct H as (σ2 & H2 & Ho & Hh). by exists σ1, σ2.
Defined.

Lemma construct_then_invoke_witness :
  MoveConstructible example T_counter
  ∧ ∃ σ' a, function_from example T_counter unused 5 ex_state = Ret () σ'
            ∧ operator_call example unused 3 σ'
              = Ret 8 (set_heap <[a:=(T_counter, 6)]> σ').
Proof.
  split; [apply example_MoveConstructible|].
  pose proof (construct_then_invoke example T_counter 5 unused 3 ex_state
                (example_MoveConstructible T_counter)) as H.
  remember (function_from example T_counter unused 5 ex_state) as o eqn:Hrun in *.
  destruct o as [[] σ'|e σ'|k]; [|by vm_compute in Hrun|done].
  destruct H as [_ (a & _ & Hcall)].
  exists σ', a. split; [done|]. exact Hcall.
Defined.

Lemma heap_move_keeps_address_witness :
  ∃ σ', function_move example unused the_table ex_state = Ret () σ'
        ∧ target example T_table the_table ex_state = Ret (to_heap block) ex_state
        ∧ target example T_table unused σ' = Ret (to_heap block) σ'
        ∧ trace σ' = trace ex_state.
Proof.
  destruct (heap_move_keeps_address example T_table 20 the_table unused
              {| buf := address block; desc := Some (td_of T_table) |}
              ex_state eq_refl eq_refl eq_refl)
    as (p & σ' & Hp & Hrun & Hq & _ & _ & _ & Ht); [discriminate|].
  assert (p = to_heap block) as -> by (by vm_compute in Hp; injection Hp).
  by exists σ'.
Defined.

Lemma move_out_and_back_witness :
  ∃ σ1 σ2, function_move example unused the_adder ex_state = Ret () σ1
           ∧ move_assign example the_adder unused σ1 = Ret () σ2
           ∧ objs σ2 !! the_adder
             = Some {| buf := inplace T_adder 10; desc := Some (td_of T_adder) |}.
Proof.
  destruct (move_out_and_back example T_adder 10 the_adder unused
              {| buf := inplace T_adder 10; desc := Some (td_of T_adder) |}
              ex_state eq_refl eq_refl)
    as (σ1 & σ2 & H1 & H2 & Hc & _).
  - discriminate.
  - apply example_MoveConstructible.
  - by exists σ1, σ2.
Defined.

Lemma moved_from_inline_still_callable_witness :
  ∃ σ', function_move example unused the_fragile ex_state = Ret () σ'
        ∧ operator_bool the_fragile σ' = Ret true σ'
        ∧ operator_call example the_fragile 3 σ' = Ret 0 σ'.
Proof.
  destruct (moved_from_inline_still_callable example T_fragile 30 the_fragile
              unused
              {| buf := inplace T_fragile 30; desc := Some (td_of T_fragile) |}
              3 ex_state eq_refl eq_refl eq_refl)
    as (σ' & r & Hrun & Hr & Hb & Hcall); [discriminate|].
  injection Hr as <-. by exists σ'.
Defined.

Lemma no_block_is_lost_witness :
  reachable example prog_state
  ∧ ∀ a, is_Some (heap prog_state !! a) →
      ∃ l s, objs prog_state !! l = Some s ∧ owned example s = Some a.
Proof.
  split; [exact prog_state_reachable|].
  intros a Ha.
  destruct (proj1 (no_block_is_lost example prog_state prog_state_reachable) a Ha)
    as (l & s & Hl & Hs & _).
  by exists l, s.
Defined.

Lemma move_construction_never_allocates_witness :
  ∃ σ', function_move example unused the_adder ex_state = Ret () σ'
        ∧ heap σ' = heap ex_state
        ∧ trace σ' = [ev_move T_adder].
Proof.
  destruct (move_construction_never_allocates example the_adder unused
              {| buf := inplace T_adder 10; desc := Some (td_of T_adder) |}
              (object T_adder 10) ex_state eq_refl eq_refl)
    as (σ' & Hrun & Hh & Ht); [discriminate|].
  by exists σ'.
Defined.
